(** * TOON decoding pipeline: secure decode, partial decode, validate-with-repair

    A shallow embedding of
      - [parse-toon.ts]            (secureToonParse, filter, parseToon, safeParseToon),
      - [parse-partial-toon.ts]    (parsePartialToon, repairPartialToon, looksComplete),
      - [parse-and-validate-object-result.ts]
    and the properties the specification states about them. *)

From Stdlib Require Import String Ascii.
From Stdlib Require DecimalString.
From Stdlib Require Import List Arith NArith ZArith Bool Lia.
From Equations Require Import Equations.
Import ListNotations.

Set Implicit Arguments.

(* ===================================================================== *)
(** * JavaScript strings *)
(* ===================================================================== *)

(** A JavaScript string is a finite sequence of UTF-16 code units. *)
Definition char16 := N.
Definition jsstring := list char16.

Definition char_of_ascii (a : ascii) : char16 := N_of_ascii a.

(** Literals of the source, which are all ASCII. *)
Definition js (s : string) : jsstring := map char_of_ascii (list_ascii_of_string s).

Definition ch_newline : char16 := 10%N.
Definition ch_quote   : char16 := 34%N.
Definition ch_colon   : char16 := 58%N.

(** White space as [String.prototype.trim], [trimEnd] and the regular
    expression class [\s] understand it: WhiteSpace and LineTerminator. *)
Definition is_ws (c : char16) : bool :=
  ((9 <=? c) && (c <=? 13))%N
  || (c =? 32)%N || (c =? 160)%N || (c =? 5760)%N
  || ((8192 <=? c) && (c <=? 8202))%N
  || (c =? 8232)%N || (c =? 8233)%N || (c =? 8239)%N
  || (c =? 8287)%N || (c =? 12288)%N || (c =? 65279)%N.

Fixpoint dropWhile {A} (p : A -> bool) (l : list A) : list A :=
  match l with
  | [] => []
  | x :: r => if p x then dropWhile p r else l
  end.

Definition trimStart (s : jsstring) : jsstring := dropWhile is_ws s.
Definition trimEnd (s : jsstring) : jsstring := rev (dropWhile is_ws (rev s)).
Definition trim (s : jsstring) : jsstring := trimStart (trimEnd s).

(** [a === b] on strings. *)
Fixpoint str_eqb (a b : jsstring) : bool :=
  match a, b with
  | [], [] => true
  | x :: a', y :: b' => (x =? y)%N && str_eqb a' b'
  | _, _ => false
  end.

(** [s.endsWith(c)] for a one-unit search string. *)
Definition endsWith (s : jsstring) (c : char16) : bool :=
  match rev s with
  | x :: _ => (x =? c)%N
  | [] => false
  end.

(** [(s.match(/c/g) || []).length]: the number of occurrences of one unit. *)
Fixpoint count_char (c : char16) (s : jsstring) : nat :=
  match s with
  | [] => 0
  | x :: r => (if (x =? c)%N then 1 else 0) + count_char c r
  end.

(** [s.split('\n')]: always at least one piece. *)
Fixpoint split_nl (s : jsstring) : list jsstring :=
  match s with
  | [] => [ [] ]
  | c :: r =>
      if (c =? ch_newline)%N then [] :: split_nl r
      else match split_nl r with
           | l :: ls => (c :: l) :: ls
           | [] => [ [c] ]
           end
  end.

(** [lines.join('\n')]. *)
Fixpoint join_nl (ls : list jsstring) : jsstring :=
  match ls with
  | [] => []
  | l :: rest =>
      match rest with
      | [] => l
      | _ :: _ => l ++ ch_newline :: join_nl rest
      end
  end.

(** [a.slice(0, i)] for [0 <= i]. *)
Definition slice0 {A} (i : nat) (a : list A) : list A := firstn i a.

(** [a[a.length - 1]]; on the empty array the index is [-1] and the read
    gives [undefined]. *)
Definition last_elem {A} (a : list A) : option A :=
  match a with
  | [] => None
  | _ :: _ => nth_error a (length a - 1)
  end.

(* ===================================================================== *)
(** * The line heuristic of the partial decoder *)
(* ===================================================================== *)

Definition looksComplete (line : jsstring) : bool :=
  let trimmed := trimEnd line in
  if length trimmed =? 0 then true
  else if endsWith trimmed ch_colon then true
  else
    let quoteCount := count_char ch_quote trimmed in
    if negb (quoteCount mod 2 =? 0) then false
    else true.

(** The backward loop [for (let i = lines.length; i >= 0; i--)], entered at
    index [i]. *)
Fixpoint repair_loop (lines : list jsstring) (i : nat) : option jsstring :=
  let continue :=
    match i with
    | 0 => None
    | S j => repair_loop lines j
    end in
  let partialLines := slice0 i lines in
  let candidate := trimEnd (join_nl partialLines) in
  if length candidate =? 0 then continue
  else
    match last_elem partialLines with
    | Some lastLine => if looksComplete lastLine then Some candidate else continue
    | None => continue
    end.

Definition repairPartialToon (text : jsstring) : option jsstring :=
  if (length text =? 0) || (length (trim text) =? 0) then None
  else
    let lines := split_nl text in
    repair_loop lines (length lines).

(* ===================================================================== *)
(** * Regular expressions of the pollution pre-screen *)
(* ===================================================================== *)

Fixpoint strip_prefix (p s : jsstring) : option jsstring :=
  match p, s with
  | [], _ => Some s
  | a :: p', b :: s' => if (a =? b)%N then strip_prefix p' s' else None
  | _ :: _, [] => None
  end.

(** A match of [/<lit>\s*:/] that starts at the first unit of [s].  The
    colon is not white space, so the greedy [\s*] never has to give back. *)
Definition key_rx_at (lit s : jsstring) : bool :=
  match strip_prefix lit s with
  | Some rest =>
      match dropWhile is_ws rest with
      | c :: _ => (c =? ch_colon)%N
      | [] => false
      end
  | None => false
  end.

(** [rx.test(s)] for a pattern without flags: a match at some position. *)
Fixpoint key_rx_test (lit s : jsstring) : bool :=
  key_rx_at lit s ||
  match s with
  | [] => false
  | _ :: r => key_rx_test lit r
  end.

Definition quoted (key : string) : jsstring := ch_quote :: js key ++ [ch_quote].

Definition suspectProtoRx (text : jsstring) : bool :=
  key_rx_test (quoted "__proto__") text.
Definition suspectConstructorRx (text : jsstring) : bool :=
  key_rx_test (quoted "constructor") text.

(* ===================================================================== *)
(** * Decoded values *)
(* ===================================================================== *)

#[local] Set Warnings "-register-all".

(** [JSONValue].  The payload of a number is never inspected by the code
    below.  The properties of an object are listed in enumeration order,
    with pairwise distinct keys. *)
Inductive JSONValue : Type :=
| VNull
| VBool (b : bool)
| VNumber (n : Z)
| VString (s : jsstring)
| VArray (elems : list JSONValue)
| VObject (props : list (jsstring * JSONValue)).

Fixpoint size (v : JSONValue) : nat :=
  match v with
  | VArray elems => S (list_sum (map size elems))
  | VObject props => S (list_sum (map (fun kv => size (snd kv)) props))
  | _ => 1
  end.

Definition total_size (vs : list JSONValue) : nat := list_sum (map size vs).

(** [v !== null && typeof v === 'object'] *)
Definition is_object (v : JSONValue) : bool :=
  match v with
  | VArray _ | VObject _ => true
  | _ => false
  end.

(** The values of the own enumerable properties, as a [for ... in] loop
    over the node reads them with [node[key]]. *)
Definition own_values (node : JSONValue) : list JSONValue :=
  match node with
  | VArray elems => elems
  | VObject props => map snd props
  | _ => []
  end.

(** Canonical array index: decimal digits without a leading zero. *)
Definition digit_val (c : char16) : option N :=
  if ((48 <=? c) && (c <=? 57))%N then Some (c - 48)%N else None.

Fixpoint parse_digits (acc : N) (s : jsstring) : option N :=
  match s with
  | [] => Some acc
  | c :: r =>
      match digit_val c with
      | Some d => parse_digits (10 * acc + d)%N r
      | None => None
      end
  end.

Definition array_index (key : jsstring) : option N :=
  match key with
  | [] => None
  | [c] => digit_val c
  | c :: _ => if (c =? 48)%N then None else parse_digits 0%N key
  end.

Definition is_index_below (key : jsstring) (n : nat) : bool :=
  match array_index key with
  | Some i => (i <? N.of_nat n)%N
  | None => false
  end.

(** Read of an own data property of an object, [props[key]]. *)
Fixpoint get_own (props : list (jsstring * JSONValue)) (key : jsstring)
  : option JSONValue :=
  match props with
  | [] => None
  | (k, v) :: rest => if str_eqb k key then Some v else get_own rest key
  end.

Definition owns_key (props : list (jsstring * JSONValue)) (key : jsstring) : bool :=
  existsb (fun kv => str_eqb (fst kv) key) props.

Inductive parse_state : Type :=
| undefined_input
| successful_parse
| repaired_parse
| failed_parse.

(** The outcome of the partial decoder; [None] stands for [undefined]. *)
Record PartialParseOutcome : Type := mkOutcome {
  value : option JSONValue;
  state : parse_state
}.

Inductive ObjectFormat : Type := format_json | format_toon.

Definition forbidden_message : string :=
  "Object contains forbidden prototype property".
Definition null_to_object_message : string :=
  "Cannot convert undefined or null to object".
Definition could_not_parse : string :=
  "No object generated: could not parse the response.".
Definition did_not_match : string :=
  "No object generated: response did not match schema.".

(* ===================================================================== *)
(** * Errors, results and the call trace *)
(* ===================================================================== *)

Section Pipeline.

(** Generation context: response metadata, token usage and finish reason
    are stored in the terminal error and never inspected. *)
Variables Response Usage FinishReason : Type.

Inductive error : Type :=
| SyntaxError (message : string)
| TypeError (message : string)
| OtherError (tag : string)
| JSONParseError (text : jsstring) (cause : error)
| TypeValidationError (v : JSONValue) (cause : error)
| NoObjectGeneratedError (message : string) (cause : error) (text : jsstring)
    (response : Response) (usage : Usage) (finishReason : FinishReason).

Definition isJSONParseError (e : error) : bool :=
  match e with JSONParseError _ _ => true | _ => false end.
Definition isTypeValidationError (e : error) : bool :=
  match e with TypeValidationError _ _ => true | _ => false end.
Definition isNoObjectGeneratedError (e : error) : bool :=
  match e with NoObjectGeneratedError _ _ _ _ _ _ => true | _ => false end.

(** Completion of a call: a returned value or a thrown error. *)
Inductive result (A : Type) : Type :=
| Ok (a : A)
| Throw (e : error).
Arguments Ok {A} a.
Arguments Throw {A} e.

(** [ParseResult<T>] of parse-json.ts, at [T = JSONValue]. *)
Inductive ParseResult : Type :=
| PSuccess (v : JSONValue) (rawValue : JSONValue)
| PFailure (e : error) (rawValue : option JSONValue).

(** Calls that leave the module, and the entry into the tree scan, are
    recorded in the order in which they happen. *)
Inductive event : Type :=
| EvDecode (text : jsstring)
| EvScan (obj : JSONValue)
| EvParseJSON (text : jsstring)
| EvValidateFinal (v : JSONValue) (text : jsstring)
| EvRepair (text : jsstring) (cause : error).

Definition trace := list event.

(** A computation: its completion and the calls it made. *)
Definition M (A : Type) : Type := (result A * trace)%type.

Definition ret {A} (a : A) : M A := (Ok a, []).
Definition throw {A} (e : error) : M A := (Throw e, []).
Definition call {A} (ev : event) (r : result A) : M A := (r, [ev]).

Definition bind {A B} (m : M A) (k : A -> M B) : M B :=
  match m with
  | (Ok a, t) => let (r, t') := k a in (r, t ++ t')
  | (Throw e, t) => (Throw e, t)
  end.

Definition try_catch {A} (m : M A) (handler : error -> M A) : M A :=
  match m with
  | (Ok a, t) => (Ok a, t)
  | (Throw e, t) => let (r, t') := handler e in (r, t ++ t')
  end.

Notation "x <- c1 ;; c2" := (bind c1 (fun x => c2))
  (at level 61, c1 at next level, right associativity).

Definition outcome_of {A} (m : M A) : result A := fst m.
Definition calls_of {A} (m : M A) : trace := snd m.

Definition is_repair (ev : event) : bool :=
  match ev with EvRepair _ _ => true | _ => false end.
Definition is_decode (ev : event) : bool :=
  match ev with EvDecode _ => true | _ => false end.
Definition is_scan (ev : event) : bool :=
  match ev with EvScan _ => true | _ => false end.

Definition repair_calls {A} (m : M A) : nat :=
  length (List.filter is_repair (calls_of m)).

(* ===================================================================== *)
(** * Secure decoder *)
(* ===================================================================== *)

(** [Object.prototype.hasOwnProperty.call(o, key)]: [ToObject] throws on
    [null]; a string or an array owns its indices and [length]. *)
Definition hasOwnProperty (o : JSONValue) (key : jsstring) : result bool :=
  match o with
  | VNull => Throw (TypeError null_to_object_message)
  | VBool _ | VNumber _ => Ok false
  | VString s => Ok (str_eqb key (js "length") || is_index_below key (length s))
  | VArray elems =>
      Ok (str_eqb key (js "length") || is_index_below key (length elems))
  | VObject props => Ok (owns_key props key)
  end.

(** [node.constructor], read where [node] owns the property. *)
Definition get_constructor (node : JSONValue) : option JSONValue :=
  match node with
  | VObject props => get_own props (js "constructor")
  | _ => None
  end.

(** One turn of [for (const node of nodes)]: the values pushed to [next],
    or the error thrown. *)
Definition visit (node : JSONValue) : result (list JSONValue) :=
  if negb (is_object node) then Ok []
  else
    match hasOwnProperty node (js "__proto__") with
    | Throw e => Throw e
    | Ok true => Throw (SyntaxError forbidden_message)
    | Ok false =>
        match hasOwnProperty node (js "constructor") with
        | Throw e => Throw e
        | Ok own_constructor =>
            let inner :=
              if own_constructor then
                match get_constructor node with
                | Some c => hasOwnProperty c (js "prototype")
                | None => Ok false
                end
              else Ok false in
            match inner with
            | Throw e => Throw e
            | Ok true => Throw (SyntaxError forbidden_message)
            | Ok false => Ok (List.filter is_object (own_values node))
            end
        end
    end.

Fixpoint scan_level (nodes next : list JSONValue) : result (list JSONValue) :=
  match nodes with
  | [] => Ok next
  | node :: rest =>
      match visit node with
      | Throw e => Throw e
      | Ok pushed => scan_level rest (next ++ pushed)
      end
  end.

(** A value together with the equation that names it, for the recursive
    call of the loop below. *)
Definition inspect {A} (a : A) : {b : A | a = b} := exist _ a eq_refl.

(** The [while (next.length)] loop of [filter], entered with the queue
    [next]; every turn replaces the queue by the composite children of its
    nodes, so the total size of the queue decreases. *)
Equations? filter_loop (next : list JSONValue) : result unit
  by wf (total_size next) lt :=
  filter_loop [] := Ok tt;
  filter_loop (n :: ns) with inspect (scan_level (n :: ns) []) := {
    | exist _ (Throw e) _ := Throw e;
    | exist _ (Ok next') Hscan := filter_loop next' }.
Proof.
  assert (Hsum : forall a b, total_size (a ++ b) = total_size a + total_size b).
  { intros a b. unfold total_size. rewrite map_app, list_sum_app. reflexivity. }
  assert (Hfil : forall l, total_size (List.filter is_object l) <= total_size l).
  { induction l as [|x l IH]; simpl; [lia|].
    destruct (is_object x); unfold total_size in *; simpl; lia. }
  assert (Hvisit : forall node pushed,
             visit node = Ok pushed -> total_size pushed < size node).
  { intros node pushed Hv. unfold visit in Hv.
    destruct node as [| b | z | s | elems | props]; simpl in Hv;
      try (injection Hv as <-; unfold total_size; simpl; lia).
    - injection Hv as <-.
      specialize (Hfil elems); unfold total_size in *; simpl; lia.
    - destruct (owns_key props (js "__proto__")); [discriminate|].
      assert (Hp : total_size (List.filter is_object (map snd props))
                   < S (list_sum (map (fun kv => size (snd kv)) props))).
      { specialize (Hfil (map snd props)). unfold total_size in *.
        rewrite map_map in Hfil. lia. }
      destruct (owns_key props (js "constructor")).
      + destruct (get_own props (js "constructor")) as [c|].
        * destruct (hasOwnProperty c (js "prototype")) as [[|]|]; try discriminate.
          injection Hv as <-. simpl. exact Hp.
        * injection Hv as <-. simpl. exact Hp.
      + injection Hv as <-. simpl. exact Hp. }
  assert (Hlevel : forall nodes acc out,
             scan_level nodes acc = Ok out ->
             total_size out + length nodes <= total_size acc + total_size nodes).
  { induction nodes as [|x nodes IH]; intros acc out Hs; simpl in Hs.
    - injection Hs as <-. unfold total_size; simpl; lia.
    - destruct (visit x) as [pushed|] eqn:Hv; [|discriminate].
      apply IH in Hs. apply Hvisit in Hv. rewrite Hsum in Hs.
      unfold total_size in *; simpl; lia. }
  apply (Hlevel (n :: ns) [] next') in Hscan.
  unfold total_size in *; simpl in *; lia.
Qed.

(** [filter(obj)]: the scan, then [return obj]. *)
Definition filter (obj : JSONValue) : result JSONValue :=
  match filter_loop [obj] with
  | Ok _ => Ok obj
  | Throw e => Throw e
  end.

(** ** Collaborators *)

(** The grammar decoder of the notation, [decode] of @toon-format/toon:
    a value, or the error it throws on malformed text. *)
Variable decode : jsstring -> result JSONValue.

(** Modelled from the spec: validate-types.ts is missing; the schema
    validator maps a value to a validated value or to the schema's own
    error detail, and a validation failure is a [TypeValidationError]
    carrying that detail as its cause. *)
Variable Schema : Type.
Variable validate : Schema -> JSONValue -> JSONValue + error.

Definition validateTypes (v : JSONValue) (schema : Schema) : M JSONValue :=
  match validate schema v with
  | inl v' => ret v'
  | inr cause => throw (TypeValidationError v cause)
  end.

Definition safeValidateTypes (v : JSONValue) (schema : Schema) : M ParseResult :=
  match validate schema v with
  | inl v' => ret (PSuccess v' v)
  | inr cause => ret (PFailure (TypeValidationError v cause) None)
  end.

(** [secureToonParse(text)] *)
Definition secureToonParse (text : jsstring) : M JSONValue :=
  obj <- call (EvDecode text) (decode text) ;;
  if negb (is_object obj) then ret obj
  else if negb (suspectProtoRx text) && negb (suspectConstructorRx text)
  then ret obj
  else call (EvScan obj) (filter obj).

(** [parseToon({text, schema})].  A failure of [validateTypes] is a
    [TypeValidationError]: the handler throws it again as it is, and it
    leaves the same way when the promise returned from the [try] block is
    rejected past the handler. *)
Definition parseToon (text : jsstring) (schema : option Schema) : M JSONValue :=
  try_catch
    (v <- secureToonParse text ;;
     match schema with
     | None => ret v
     | Some sch => validateTypes v sch
     end)
    (fun e =>
       if isJSONParseError e || isTypeValidationError e then throw e
       else throw (JSONParseError text e)).

(** [safeParseToon({text, schema})] *)
Definition safeParseToon (text : jsstring) (schema : option Schema) : M ParseResult :=
  try_catch
    (v <- secureToonParse text ;;
     match schema with
     | None => ret (PSuccess v v)
     | Some sch => safeValidateTypes v sch
     end)
    (fun e =>
       ret (PFailure (if isJSONParseError e then e else JSONParseError text e)
              None)).

(** [isParsableToon(input)] *)
Definition isParsableToon (input : jsstring) : M bool :=
  try_catch (_ <- secureToonParse input ;; ret true) (fun _ => ret false).

(* ===================================================================== *)
(** * Partial decoder *)
(* ===================================================================== *)

Definition failed_outcome : PartialParseOutcome := mkOutcome None failed_parse.

(** [parsePartialToon(toonText)]; [None] is [undefined]. *)
Definition parsePartialToon (toonText : option jsstring) : M PartialParseOutcome :=
  match toonText with
  | None => ret (mkOutcome None undefined_input)
  | Some toonText =>
      r <- safeParseToon toonText None ;;
      match r with
      | PSuccess v _ => ret (mkOutcome (Some v) successful_parse)
      | PFailure _ _ =>
          match repairPartialToon toonText with
          | Some repairedText =>
              if negb (str_eqb repairedText toonText) then
                r2 <- safeParseToon repairedText None ;;
                match r2 with
                | PSuccess v _ => ret (mkOutcome (Some v) repaired_parse)
                | PFailure _ _ => ret failed_outcome
                end
              else ret failed_outcome
          | None => ret failed_outcome
          end
      end
  end.

(* ===================================================================== *)
(** * Validate-with-repair orchestrator *)
(* ===================================================================== *)

Variable RESULT : Type.

(** The JSON sibling path, [safeParseJSON] of provider-utils. *)
Variable safeParseJSON : jsstring -> ParseResult.

(** [ValidationResult<RESULT>] *)
Inductive ValidationResult : Type :=
| VSuccess (v : RESULT)
| VFailure (e : error).

(** [OutputStrategy.validateFinalResult(value, {text, response, usage})]:
    the awaited call gives a validation result, or it is rejected with an
    error of any kind. *)
Definition OutputStrategy : Type :=
  JSONValue -> jsstring -> Response -> Usage -> result ValidationResult.

(** [RepairTextFunction]: [({text, error}) => Promise<string | null>]; the
    awaited call gives a text or null, or it is rejected with an error. *)
Definition RepairTextFunction : Type :=
  jsstring -> error -> result (option jsstring).

Record GenerationContext : Type := mkContext {
  response : Response;
  usage : Usage;
  finishReason : FinishReason
}.

Definition parseAndValidateObjectResult (text : jsstring)
    (outputStrategy : OutputStrategy) (format : ObjectFormat)
    (context : GenerationContext) : M RESULT :=
  parseResult <-
    match format with
    | format_toon => safeParseToon text None
    | format_json => call (EvParseJSON text) (Ok (safeParseJSON text))
    end ;;
  match parseResult with
  | PFailure e _ =>
      throw (NoObjectGeneratedError could_not_parse e text
               (response context) (usage context) (finishReason context))
  | PSuccess v _ =>
      validationResult <-
        call (EvValidateFinal v text)
          (outputStrategy v text (response context) (usage context)) ;;
      match validationResult with
      | VFailure e =>
          throw (NoObjectGeneratedError did_not_match e text
                   (response context) (usage context) (finishReason context))
      | VSuccess r => ret r
      end
  end.

(** The guard of the [catch] block is read left to right:
    [repairText != null], [NoObjectGeneratedError.isInstance(error)], then
    the class of [error.cause]. *)
Definition parseAndValidateObjectResultWithRepair (text : jsstring)
    (outputStrategy : OutputStrategy) (repairText : option RepairTextFunction)
    (format : ObjectFormat) (context : GenerationContext) : M RESULT :=
  try_catch
    (parseAndValidateObjectResult text outputStrategy format context)
    (fun e =>
       match repairText with
       | Some repair =>
           match e with
           | NoObjectGeneratedError _ cause _ _ _ _ =>
               if isJSONParseError cause || isTypeValidationError cause then
                 repairedText <-
                   call (EvRepair text cause) (repair text cause) ;;
                 match repairedText with
                 | None => throw e
                 | Some repaired =>
                     parseAndValidateObjectResult repaired outputStrategy
                       format context
                 end
               else throw e
           | _ => throw e
           end
       | None => throw e
       end).

(* ===================================================================== *)
(** * Vocabulary of the statements *)
(* ===================================================================== *)

(** The text has no trailing white space. *)
Definition no_trailing_ws (text : jsstring) : bool :=
  match rev text with
  | c :: _ => negb (is_ws c)
  | [] => true
  end.

(** The full parse of the text, as the partial decoder attempts it, fails. *)
Definition full_parse_fails (text : jsstring) : bool :=
  match outcome_of (safeParseToon text None) with
  | Ok (PSuccess _ _) => false
  | _ => true
  end.

(** The candidate built from the first [i] lines, and whether the backward
    search stops at it. *)
Definition candidate (lines : list jsstring) (i : nat) : jsstring :=
  trimEnd (join_nl (slice0 i lines)).

Definition stops_at (lines : list jsstring) (i : nat) : bool :=
  negb (length (candidate lines i) =? 0) &&
  match last_elem (slice0 i lines) with
  | Some lastLine => looksComplete lastLine
  | None => false
  end.

(** The error a failure result of [safeParseToon] carries. *)
Definition normalize_safe (text : jsstring) (e : error) : error :=
  if isJSONParseError e then e else JSONParseError text e.

Definition decoded_texts {A} (m : M A) : list jsstring :=
  flat_map (fun ev => match ev with EvDecode t => [t] | _ => [] end) (calls_of m).

(** The first claim about the backward search, in the words of the
    specification: a repaired value is the decode of some candidate prefix,
    and failed-parse is reported only after every prefix at which the search
    can stop has been decoded. *)
Definition search_continues_past_failed_candidate : Prop :=
  forall text, full_parse_fails text = true ->
    (forall v,
        outcome_of (parsePartialToon (Some text)) =
          Ok (mkOutcome (Some v) repaired_parse) ->
        exists i, outcome_of (safeParseToon (candidate (split_nl text) i) None) =
                    Ok (PSuccess v v))
    /\ (outcome_of (parsePartialToon (Some text)) = Ok failed_outcome ->
        forall i, i <= length (split_nl text) ->
          stops_at (split_nl text) i = true ->
          In (candidate (split_nl text) i)
             (decoded_texts (parsePartialToon (Some text)))).

(** ** Vocabulary for the tree scan *)

(** The value owns the key; [null] owns nothing. *)
Definition owns (o : JSONValue) (key : jsstring) : bool :=
  match hasOwnProperty o key with
  | Ok b => b
  | Throw _ => false
  end.

(** A composite node that owns [__proto__], or owns a [constructor] whose
    value owns [prototype]. *)
Definition forbidden_node (node : JSONValue) : bool :=
  is_object node &&
  (owns node (js "__proto__")
   || (owns node (js "constructor")
       && match get_constructor node with
          | Some c => owns c (js "prototype")
          | None => false
          end)).

(** A composite node that owns a [constructor] whose value is [null]. *)
Definition null_constructor (node : JSONValue) : bool :=
  is_object node && owns node (js "constructor")
  && match get_constructor node with
     | Some VNull => true
     | _ => false
     end.

(** Some node of the tree satisfies [p]. *)
Fixpoint any_node (p : JSONValue -> bool) (v : JSONValue) : bool :=
  p v ||
  match v with
  | VArray elems => existsb (any_node p) elems
  | VObject props => existsb (fun kv => any_node p (snd kv)) props
  | _ => false
  end.

(** The composite children of a node, as the scan queues them. *)
Definition children (node : JSONValue) : list JSONValue :=
  List.filter is_object (own_values node).

(** ** Vocabulary for the orchestrator *)

(** The parse step of one attempt, by format. *)
Definition parse_step (format : ObjectFormat) (text : jsstring) : M ParseResult :=
  match format with
  | format_toon => safeParseToon text None
  | format_json => call (EvParseJSON text) (Ok (safeParseJSON text))
  end.

(** How one attempt on [text] fails: the reason and the cause reported by
    the parse step or by the validation of the parsed value; [None] when
    the attempt succeeds or the validator throws. *)
Definition attempt_failure (text : jsstring) (outputStrategy : OutputStrategy)
    (format : ObjectFormat) (context : GenerationContext)
  : option (string * error) :=
  match outcome_of (parse_step format text) with
  | Ok (PFailure e _) => Some (could_not_parse, e)
  | Ok (PSuccess v _) =>
      match outputStrategy v text (response context) (usage context) with
      | Ok (VFailure e) => Some (did_not_match, e)
      | Ok (VSuccess _) => None
      | Throw _ => None
      end
  | Throw e => Some (could_not_parse, e)
  end.

(** The error the validator throws in one attempt on [text], if it is
    called and throws. *)
Definition validator_throws (text : jsstring) (outputStrategy : OutputStrategy)
    (format : ObjectFormat) (context : GenerationContext) : option error :=
  match outcome_of (parse_step format text) with
  | Ok (PSuccess v _) =>
      match outputStrategy v text (response context) (usage context) with
      | Throw e => Some e
      | Ok _ => None
      end
  | _ => None
  end.

(** The terminal error of an attempt on [text]. *)
Definition terminal (reason : string) (cause : error) (text : jsstring)
    (context : GenerationContext) : error :=
  NoObjectGeneratedError reason cause text
    (response context) (usage context) (finishReason context).

(** The cause is of the decode class or of the validation class. *)
Definition repairable (cause : error) : bool :=
  isJSONParseError cause || isTypeValidationError cause.

(** The cause for which the guard of the [catch] block lets a repair
    happen: the caught error is a [NoObjectGeneratedError] and its cause is
    repairable. *)
Definition repair_cause (e : error) : option error :=
  match e with
  | NoObjectGeneratedError _ cause _ _ _ _ =>
      if repairable cause then Some cause else None
  | _ => None
  end.

(** The last clause of the sixth claim, in the words of the specification:
    after a repair, whatever makes the second attempt fail is raised as a
    terminal error of the repaired text. *)
Definition second_failure_is_terminal : Prop :=
  forall text outputStrategy repair format context e cause repaired e2,
    outcome_of (parseAndValidateObjectResult text outputStrategy format context)
      = Throw e ->
    repair_cause e = Some cause ->
    repair text cause = Ok (Some repaired) ->
    outcome_of
      (parseAndValidateObjectResult repaired outputStrategy format context)
      = Throw e2 ->
    exists reason cause2,
      outcome_of
        (parseAndValidateObjectResultWithRepair text outputStrategy
           (Some repair) format context)
      = Throw (terminal reason cause2 repaired context).

(** ** Sample collaborators, for concrete runs *)

(** A decoder that knows three documents and rejects every other text. *)
Definition stub_decode (text : jsstring) : result JSONValue :=
  if str_eqb text (js "k: 1") then Ok (VObject [(js "k", VNumber 1)])
  else if str_eqb text (quoted "constructor" ++ js ": null")
  then Ok (VObject [(js "constructor", VNull)])
  else if str_eqb text (js "__proto__: 1")
  then Ok (VObject [(js "__proto__", VNumber 1)])
  else Throw (SyntaxError "Missing colon after key").

(** A schema is a flag: the strict schema rejects every value. *)
Definition stub_validate (strict : bool) (v : JSONValue) : JSONValue + error :=
  if strict then inr (OtherError "schema mismatch") else inl v.

(** Three lines: a key, a line without a colon, and a row cut inside a
    quoted string. *)
Definition cut_text : jsstring :=
  js "k: 1" ++ ch_newline :: js "]]" ++ ch_newline :: js "z: " ++ ch_quote :: js "a".

(** A decoder that knows one document, whose key is [__proto__] in
    quotes. *)
Definition stub_decode_quoted (text : jsstring) : result JSONValue :=
  if str_eqb text (quoted "__proto__" ++ js ": 1")
  then Ok (VObject [(js "__proto__", VNumber 1)])
  else Throw (SyntaxError "Missing colon after key").

(** Two lines: a key, and a row cut inside a quoted string. *)
Definition cut_row_text : jsstring :=
  js "k: 1" ++ ch_newline :: js "z: " ++ ch_quote :: js "a".

(* ===================================================================== *)
(** * Instruction injection: values, schemas and the example generator *)
(* ===================================================================== *)

(** Values as the example generator builds them: [undefined] is a value,
    and an object records its prototype, which an assignment to the key
    [__proto__] can replace.  For the prototype, [None] is
    [Object.prototype], [Some JNull] is [null], and [Some v] is the
    object [v]. *)
Inductive JSValue : Type :=
| JUndefined
| JNull
| JBool (b : bool)
| JNumber (n : Z)
| JString (s : jsstring)
| JArray (elems : list JSValue)
| JObject (proto : option JSValue) (props : list (jsstring * JSValue)).

(** [{}] *)
Definition empty_object : JSValue := JObject None [].

(** [typeof v === 'object' && v !== null] *)
Definition is_js_object (v : JSValue) : bool :=
  match v with
  | JArray _ | JObject _ _ => true
  | _ => false
  end.

Definition is_undefined (v : JSValue) : bool :=
  match v with
  | JUndefined => true
  | _ => false
  end.

(** Property keys that are array indices: canonical decimal numerals up to
    [2^32 - 2].  An object lists them first, in ascending order. *)
Definition index_of_key (key : jsstring) : option N :=
  match array_index key with
  | Some i => if (i <=? 4294967294)%N then Some i else None
  | None => None
  end.

(** The key of the array index [i]. *)
Definition index_key (i : nat) : jsstring :=
  js (DecimalString.NilZero.string_of_uint (N.to_uint (N.of_nat i))).

Fixpoint assoc_get {V} (props : list (jsstring * V)) (key : jsstring) : option V :=
  match props with
  | [] => None
  | (k, v) :: rest => if str_eqb k key then Some v else assoc_get rest key
  end.

(** Overwriting the value of an own property keeps its place. *)
Fixpoint update_prop {V} (props : list (jsstring * V)) (key : jsstring) (v : V)
  : list (jsstring * V) :=
  match props with
  | [] => []
  | (k, v') :: rest =>
      if str_eqb k key then (k, v) :: rest
      else (k, v') :: update_prop rest key v
  end.

(** A new index key goes before the first key that is no index or a larger
    index. *)
Fixpoint insert_index {V} (i : N) (key : jsstring) (v : V)
    (props : list (jsstring * V)) : list (jsstring * V) :=
  match props with
  | [] => [(key, v)]
  | (k', v') :: rest =>
      match index_of_key k' with
      | Some j =>
          if (j <? i)%N then (k', v') :: insert_index i key v rest
          else (key, v) :: props
      | None => (key, v) :: props
      end
  end.

(** Creation of an own property: index keys in order, other keys last. *)
Definition add_prop {V} (props : list (jsstring * V)) (key : jsstring) (v : V)
  : list (jsstring * V) :=
  match index_of_key key with
  | Some i => insert_index i key v props
  | None => props ++ [(key, v)]
  end.

(** Does a write to [__proto__] that starts at the prototype [p] find the
    accessor of [Object.prototype]?  An object on the way that owns the key
    as a data property hides it, and so does a null prototype. *)
Fixpoint finds_proto_accessor (p : JSValue) : bool :=
  match p with
  | JNull => false
  | JObject proto props =>
      match assoc_get props (js "__proto__") with
      | Some _ => false
      | None =>
          match proto with
          | None => true
          | Some q => finds_proto_accessor q
          end
      end
  | _ => true
  end.

(** [result[key] = v] on a plain object.  An own property is overwritten;
    a write to [__proto__] that reaches the accessor replaces the prototype
    when [v] is an object or null and does nothing otherwise; every other
    write creates an own property. *)
Definition obj_set (result : JSValue) (key : jsstring) (v : JSValue) : JSValue :=
  match result with
  | JObject proto props =>
      match assoc_get props key with
      | Some _ => JObject proto (update_prop props key v)
      | None =>
          if str_eqb key (js "__proto__")
             && match proto with
                | None => true
                | Some p => finds_proto_accessor p
                end
          then
            match v with
            | JArray _ | JObject _ _ | JNull => JObject (Some v) props
            | _ => result
            end
          else JObject proto (add_prop props key v)
      end
  | _ => result
  end.

Fixpoint indexed_from {V} (i : nat) (elems : list V) : list (jsstring * V) :=
  match elems with
  | [] => []
  | e :: rest => (index_key i, e) :: indexed_from (S i) rest
  end.

(** The own enumerable properties of an object or array, in order. *)
Definition own_entries (v : JSValue) : list (jsstring * JSValue) :=
  match v with
  | JArray elems => indexed_from 0 elems
  | JObject _ props => props
  | _ => []
  end.

(** [Object.assign(result, source)] *)
Definition object_assign (result source : JSValue) : JSValue :=
  fold_left (fun r kv => obj_set r (fst kv) (snd kv)) (own_entries source) result.

Inductive JSONSchema7TypeName : Type :=
| T_string | T_number | T_integer | T_boolean | T_object | T_array | T_null.

(** The [type] keyword: absent, one name, or an array of names. *)
Inductive SchemaType : Type :=
| TypeAbsent
| TypeOne (t : JSONSchema7TypeName)
| TypeMany (ts : list JSONSchema7TypeName).

(** [JSONSchema7Definition], with the keywords the generator reads.  An
    absent keyword is the empty string for [$ref], the empty list for
    [anyOf], [oneOf], [allOf], [enum] and [properties], and [undefined] for
    [const]: the generator treats each pair alike.  [items] is absent, one
    schema, or a tuple of schemas. *)
Inductive JSONSchema7 : Type :=
| SchemaBool (b : bool)
| SchemaNode (ref : jsstring)
    (anyOf oneOf allOf : list JSONSchema7)
    (const : JSValue) (enum : list JSValue)
    (type : SchemaType)
    (properties : list (jsstring * JSONSchema7))
    (items : option (JSONSchema7 + list JSONSchema7)).

(** Truthiness of a schema definition: only [false] is falsy. *)
Definition schema_truthy (schema : JSONSchema7) : bool :=
  match schema with
  | SchemaBool b => b
  | SchemaNode _ _ _ _ _ _ _ _ _ => true
  end.

(** [Array.isArray(schema.type) ? schema.type[0] : schema.type] *)
Definition first_type (type : SchemaType) : option JSONSchema7TypeName :=
  match type with
  | TypeAbsent => None
  | TypeOne t => Some t
  | TypeMany ts => hd_error ts
  end.

(** [generateExampleFromSchema(schema)].  A tuple given as [items] is read
    as a schema without keywords and yields [{}]. *)
Fixpoint generateExampleFromSchema (schema : JSONSchema7) : JSValue :=
  match schema with
  | SchemaBool true => empty_object
  | SchemaBool false => JUndefined
  | SchemaNode ref anyOf oneOf allOf const enum type properties items =>
      if negb (length ref =? 0) then empty_object
      else
        match anyOf with
        | first :: _ => generateExampleFromSchema first
        | [] =>
        match oneOf with
        | first :: _ => generateExampleFromSchema first
        | [] =>
        match allOf with
        | _ :: _ =>
            fold_left
              (fun result subSchema =>
                 let subExample := generateExampleFromSchema subSchema in
                 if is_js_object subExample
                 then object_assign result subExample
                 else result)
              allOf empty_object
        | [] =>
        if negb (is_undefined const) then const
        else
          match enum with
          | first :: _ => first
          | [] =>
              let from_properties :=
                fold_left
                  (fun result kp =>
                     obj_set result (fst kp) (generateExampleFromSchema (snd kp)))
                  properties empty_object in
              match first_type type with
              | Some T_object => from_properties
              | Some T_array =>
                  match items with
                  | Some (inl itemSchema) =>
                      if schema_truthy itemSchema
                      then JArray [generateExampleFromSchema itemSchema;
                                   generateExampleFromSchema itemSchema]
                      else JArray []
                  | Some (inr _) => JArray [empty_object; empty_object]
                  | None => JArray []
                  end
              | Some T_string => JString (js "example")
              | Some T_number | Some T_integer => JNumber 1
              | Some T_boolean => JBool true
              | Some T_null => JNull
              | None => from_properties
              end
          end
        end
        end
        end
  end.

Definition DEFAULT_TOON_INSTRUCTIONS : jsstring :=
  join_nl
    [ js "Data format: TOON (Token-Oriented Object Notation)";
      js "- Uses 2-space indentation instead of braces/brackets";
      js "- Arrays use header syntax: fieldName[count]{properties}:";
      js "- Strings, numbers, booleans are on their own lines";
      js "- No commas, no quotes around keys" ].

Definition DEFAULT_TOON_SUFFIX : jsstring :=
  js "Respond with valid TOON matching the structure above. No code blocks or markdown.".

(** The encoder of the notation, [encode] of @toon-format/toon. *)
Variable encode : JSValue -> jsstring.

(** [lines.filter(line => line != null)] *)
Definition drop_nullish {A} (lines : list (option A)) : list A :=
  flat_map (fun line => match line with Some l => [l] | None => [] end) lines.

(** [injectToonInstruction({prompt, schema})]; [None] is an absent
    argument. *)
Definition injectToonInstruction (prompt : option jsstring)
    (schema : option JSONSchema7) : jsstring :=
  let exampleToon :=
    match schema with
    | Some s =>
        if schema_truthy s then Some (encode (generateExampleFromSchema s))
        else None
    | None => None
    end in
  let has_prompt :=
    match prompt with
    | Some p => negb (length p =? 0)
    | None => false
    end in
  join_nl
    (drop_nullish
       [ if has_prompt then prompt else None;
         if has_prompt then Some [] else None;
         Some DEFAULT_TOON_INSTRUCTIONS;
         Some [];
         Some (js "Expected structure:");
         exampleToon;
         Some [];
         Some DEFAULT_TOON_SUFFIX ]).

(** [LanguageModelV3Message]: a system message holds a text and optional
    provider options; the messages of the other roles are not inspected. *)
Variables ProviderOptions OtherMessage : Type.

Inductive LanguageModelV3Message : Type :=
| SystemMessage (content : jsstring) (providerOptions : option ProviderOptions)
| NonSystemMessage (m : OtherMessage).

Definition is_system (m : LanguageModelV3Message) : bool :=
  match m with
  | SystemMessage _ _ => true
  | NonSystemMessage _ => false
  end.

(** [injectToonInstructionIntoMessages({messages, schema})] *)
Definition injectToonInstructionIntoMessages
    (messages : list LanguageModelV3Message) (schema : option JSONSchema7)
  : list LanguageModelV3Message :=
  let systemMessage :=
    match messages with
    | SystemMessage content po :: _ => (content, po)
    | _ => ([], None)
    end in
  let content := injectToonInstruction (Some (fst systemMessage)) schema in
  SystemMessage content (snd systemMessage)
  :: match messages with
     | SystemMessage _ _ :: rest => rest
     | _ => messages
     end.

(** ** Vocabulary for the example generator *)

(** No [undefined] anywhere in the own properties and elements. *)
Fixpoint defined_value (v : JSValue) : bool :=
  match v with
  | JUndefined => false
  | JArray elems => forallb defined_value elems
  | JObject _ props => forallb (fun kv => defined_value (snd kv)) props
  | _ => true
  end.

(** The schema [false] occurs nowhere, and no [const] or [enum] value
    holds [undefined]. *)
Fixpoint plain_schema (schema : JSONSchema7) : bool :=
  match schema with
  | SchemaBool b => b
  | SchemaNode _ anyOf oneOf allOf const enum _ properties items =>
      forallb plain_schema anyOf && forallb plain_schema oneOf
      && forallb plain_schema allOf
      && (is_undefined const || defined_value const)
      && forallb defined_value enum
      && forallb (fun kp => plain_schema (snd kp)) properties
      && match items with
         | Some (inl s) => plain_schema s
         | Some (inr ss) => forallb plain_schema ss
         | None => true
         end
  end.

(** The schema describes an object by its properties: no reference, no
    combinator, no [const], no [enum], and the type [object] or none. *)
Definition property_schema (schema : JSONSchema7) : bool :=
  match schema with
  | SchemaBool _ => false
  | SchemaNode ref anyOf oneOf allOf const enum type _ _ =>
      (length ref =? 0)
      && (length anyOf =? 0) && (length oneOf =? 0) && (length allOf =? 0)
      && is_undefined const && (length enum =? 0)
      && match first_type type with
         | Some T_object | None => true
         | _ => false
         end
  end.

Definition schema_properties (schema : JSONSchema7)
  : list (jsstring * JSONSchema7) :=
  match schema with
  | SchemaBool _ => []
  | SchemaNode _ _ _ _ _ _ _ properties _ => properties
  end.

(** The own property of an object value. *)
Definition js_get_own (v : JSValue) (key : jsstring) : option JSValue :=
  match v with
  | JObject _ props => assoc_get props key
  | _ => None
  end.

(** The value of the last entry with the key: the one that remains when the
    entries are assigned in order. *)
Definition last_entry {V} (entries : list (jsstring * V)) (key : jsstring)
  : option V :=
  assoc_get (rev entries) key.

(** The examples of the members of an [allOf] that are objects or arrays,
    and the value a key has after they are merged in order. *)
Definition member_examples (allOf : list JSONSchema7) : list JSValue :=
  List.filter is_js_object (map generateExampleFromSchema allOf).

Definition merged_lookup (sources : list JSValue) (key : jsstring)
  : option JSValue :=
  fold_left
    (fun acc source =>
       match last_entry (own_entries source) key with
       | Some v => Some v
       | None => acc
       end)
    sources None.

(** The schema of the test suite: an object with a name and an age. *)
Definition basicSchema : JSONSchema7 :=
  SchemaNode [] [] [] [] JUndefined [] (TypeOne T_object)
    [ (js "name", SchemaNode [] [] [] [] JUndefined [] (TypeOne T_string) [] None);
      (js "age", SchemaNode [] [] [] [] JUndefined [] (TypeOne T_number) [] None) ]
    None.

(* ===================================================================== *)
(** * Facts about strings *)
(* ===================================================================== *)

Lemma dropWhile_app_stop {A} (p : A -> bool) (l : list A) (x : A) (r : list A) :
  p x = false -> forallb p l = true -> dropWhile p (l ++ x :: r) = x :: r.
Proof.
  intros Hx. induction l as [|y l IH]; simpl; intros Hl.
  - rewrite Hx. reflexivity.
  - apply andb_prop in Hl as [Hy Hl]. rewrite Hy. auto.
Qed.

Lemma dropWhile_all {A} (p : A -> bool) (l : list A) :
  forallb p l = true -> dropWhile p l = [].
Proof.
  induction l as [|y l IH]; simpl; intros Hl; [reflexivity|].
  apply andb_prop in Hl as [Hy Hl]. rewrite Hy. auto.
Qed.

Lemma dropWhile_nil_all {A} (p : A -> bool) (l : list A) :
  dropWhile p l = [] -> forallb p l = true.
Proof.
  induction l as [|y l IH]; simpl; intros Hl; [reflexivity|].
  destruct (p y); [auto | discriminate].
Qed.

Lemma dropWhile_suffix {A} (p : A -> bool) (l : list A) :
  exists pre, l = pre ++ dropWhile p l /\ forallb p pre = true.
Proof.
  induction l as [|y l [pre [IH1 IH2]]]; simpl.
  - exists []. auto.
  - destruct (p y) eqn:Hy.
    + exists (y :: pre). simpl. rewrite Hy, IH2. split; [congruence | reflexivity].
    + exists []. auto.
Qed.

(** [trimEnd] removes a block of white space at the end and nothing else. *)
Lemma trimEnd_split (s : jsstring) :
  exists ws, s = trimEnd s ++ ws /\ forallb is_ws ws = true.
Proof.
  unfold trimEnd. destruct (dropWhile_suffix is_ws (rev s)) as [pre [H1 H2]].
  exists (rev pre). split.
  - rewrite <- rev_app_distr, <- H1, rev_involutive. reflexivity.
  - rewrite forallb_forall in *. intros x Hx. apply H2. now apply in_rev.
Qed.

Lemma trimEnd_no_trailing (s : jsstring) :
  no_trailing_ws s = true -> trimEnd s = s.
Proof.
  unfold no_trailing_ws, trimEnd. intros H.
  destruct (rev s) as [|c r] eqn:Hr.
  - simpl. apply (f_equal (@rev _)) in Hr. rewrite rev_involutive in Hr.
    symmetry. exact Hr.
  - simpl. apply negb_true_iff in H. rewrite H.
    rewrite <- Hr. apply rev_involutive.
Qed.

Lemma trimEnd_last_not_ws (s : jsstring) :
  no_trailing_ws (trimEnd s) = true.
Proof.
  unfold no_trailing_ws, trimEnd. rewrite rev_involutive.
  induction (rev s) as [|c r IH]; simpl; [reflexivity|].
  destruct (is_ws c) eqn:Hc; [exact IH | simpl; now rewrite Hc].
Qed.

Lemma trimEnd_nil_iff (s : jsstring) :
  trimEnd s = [] <-> forallb is_ws s = true.
Proof.
  unfold trimEnd. split; intros H.
  - apply (f_equal (@rev _)) in H. rewrite rev_involutive in H. simpl in H.
    apply dropWhile_nil_all in H. rewrite forallb_forall in *.
    intros x Hx. apply H. now apply in_rev in Hx.
  - rewrite dropWhile_all; [reflexivity|].
    rewrite forallb_forall in *. intros x Hx. apply H. now apply in_rev.
Qed.

Lemma count_char_app (c : char16) (a b : jsstring) :
  count_char c (a ++ b) = count_char c a + count_char c b.
Proof. induction a as [|x a IH]; simpl; [reflexivity | rewrite IH; lia]. Qed.

Lemma count_char_ws (ws : jsstring) :
  forallb is_ws ws = true -> count_char ch_quote ws = 0.
Proof.
  induction ws as [|x ws IH]; simpl; intros H; [reflexivity|].
  apply andb_prop in H as [Hx Hws]. rewrite (IH Hws).
  destruct (N.eqb_spec x ch_quote) as [->|]; [discriminate Hx | reflexivity].
Qed.

(** Quotes are not white space: trimming does not change their number. *)
Lemma count_quote_trimEnd (line : jsstring) :
  count_char ch_quote (trimEnd line) = count_char ch_quote line.
Proof.
  destruct (trimEnd_split line) as [ws [H1 H2]].
  rewrite H1 at 2. rewrite count_char_app, (count_char_ws _ H2). lia.
Qed.

Lemma even_mod2 (n : nat) : Nat.even n = (n mod 2 =? 0).
Proof.
  destruct (Nat.even n) eqn:He; symmetry.
  - apply Nat.even_spec in He as [k ->]. apply Nat.eqb_eq.
    rewrite Nat.mul_comm. apply Nat.Div0.mod_mul.
  - apply Nat.eqb_neq. intros Hm.
    assert (Nat.even n = true); [|congruence].
    apply Nat.even_spec. exists (n / 2).
    pose proof (Nat.div_mod_eq n 2). lia.
Qed.

(* ===================================================================== *)
(** * The line heuristic *)
(* ===================================================================== *)

(** C5. A line is judged complete exactly when it is empty after trimming
    trailing white space, or the trimmed line ends with the colon, or the
    trimmed line holds an even number of double quotes; a line judged
    incomplete is not empty and holds an odd number of double quotes, also
    when they are counted in the untrimmed line. *)
Theorem C5_looksComplete_iff (line : jsstring) :
  (looksComplete line = true <->
     (trimEnd line = []
      \/ endsWith (trimEnd line) ch_colon = true
      \/ Nat.even (count_char ch_quote (trimEnd line)) = true))
  /\ (looksComplete line = false <->
        (trimEnd line <> []
         /\ endsWith (trimEnd line) ch_colon = false
         /\ Nat.odd (count_char ch_quote (trimEnd line)) = true))
  /\ (looksComplete line = false -> Nat.odd (count_char ch_quote line) = true).
Proof.
  assert (Hodd : forall n, Nat.odd n = negb (n mod 2 =? 0)).
  { intros n. unfold Nat.odd. now rewrite even_mod2. }
  assert (H2 : looksComplete line = false <->
        (trimEnd line <> []
         /\ endsWith (trimEnd line) ch_colon = false
         /\ Nat.odd (count_char ch_quote (trimEnd line)) = true)).
  { unfold looksComplete. rewrite Hodd.
    destruct (trimEnd line) as [|c t] eqn:Ht; simpl length; simpl Nat.eqb.
    - split; [discriminate | intros [H _]; now elim H].
    - destruct (endsWith (c :: t) ch_colon).
      + split; [discriminate | intros [_ [H _]]; discriminate].
      + destruct (negb _).
        * split; [intros _; repeat split; discriminate | reflexivity].
        * split; [discriminate | intros [_ [_ H]]; discriminate]. }
  split; [|split].
  - unfold looksComplete. rewrite <- even_mod2.
    destruct (trimEnd line) as [|c t] eqn:Ht; simpl length; simpl Nat.eqb.
    + split; auto.
    + destruct (endsWith (c :: t) ch_colon); [split; auto|].
      destruct (Nat.even _); simpl; split; auto.
      intros [H|[H|H]]; discriminate.
  - exact H2.
  - intros H. apply H2 in H as [_ [_ H]].
    now rewrite count_quote_trimEnd in H.
Qed.

(* ===================================================================== *)
(** * The backward search *)
(* ===================================================================== *)

Lemma split_nl_not_nil (s : jsstring) : split_nl s <> [].
Proof.
  destruct s as [|c r]; simpl; [discriminate|].
  destruct (c =? ch_newline)%N; [discriminate|].
  destruct (split_nl r); discriminate.
Qed.

(** Joining the lines of a text gives the text back. *)
Lemma join_split_nl (s : jsstring) : join_nl (split_nl s) = s.
Proof.
  induction s as [|c r IH]; [reflexivity|].
  simpl split_nl. destruct (N.eqb_spec c ch_newline) as [->|Hc].
  - pose proof (split_nl_not_nil r) as Hne.
    simpl. destruct (split_nl r) as [|l ls]; [now elim Hne|].
    simpl app. now rewrite IH.
  - pose proof (split_nl_not_nil r) as Hne.
    destruct (split_nl r) as [|l ls]; [now elim Hne|].
    simpl in *. destruct ls; simpl; now rewrite <- IH.
Qed.

Lemma last_elem_last {A} (l : list A) (x : A) : last_elem (l ++ [x]) = Some x.
Proof.
  unfold last_elem. destruct (l ++ [x]) as [|y r] eqn:E.
  - destruct l; discriminate.
  - rewrite <- E. rewrite length_app. simpl.
    replace (length l + 1 - 1) with (length l) by lia.
    rewrite nth_error_app2, Nat.sub_diag by lia. reflexivity.
Qed.

Lemma last_elem_some {A} (l : list A) : l <> [] -> exists x, last_elem l = Some x.
Proof.
  intros H. destruct (exists_last H) as [l' [x ->]].
  exists x. apply last_elem_last.
Qed.

(** One turn of the backward loop. *)
Lemma repair_loop_step (lines : list jsstring) (i : nat) :
  repair_loop lines i =
  if stops_at lines i then Some (candidate lines i)
  else match i with
       | 0 => None
       | S j => repair_loop lines j
       end.
Proof.
  unfold stops_at, candidate.
  destruct i; simpl repair_loop;
    destruct (length _ =? 0); simpl; try reflexivity;
    destruct (last_elem _) as [l|]; try reflexivity;
    destruct (looksComplete l); reflexivity.
Qed.

Lemma stops_at_0 (lines : list jsstring) : stops_at lines 0 = false.
Proof. reflexivity. Qed.

(** The loop returns the candidate of the longest prefix at which it stops. *)
Lemma repair_loop_some (lines : list jsstring) (i : nat) (c : jsstring) :
  repair_loop lines i = Some c <->
  exists k, k <= i /\ stops_at lines k = true /\ c = candidate lines k
            /\ forall j, k < j <= i -> stops_at lines j = false.
Proof.
  induction i as [|i IH]; rewrite repair_loop_step.
  - rewrite stops_at_0. split; [discriminate|].
    intros [k [Hk [Hs _]]]. assert (k = 0) by lia. subst.
    rewrite stops_at_0 in Hs. discriminate.
  - destruct (stops_at lines (S i)) eqn:Hs.
    + split.
      * intros [= <-]. exists (S i). repeat split; auto. intros j Hj. lia.
      * intros [k [Hk [Hsk [-> Hall]]]].
        destruct (Nat.eq_dec k (S i)) as [->|Hne]; [reflexivity|].
        rewrite (Hall (S i)) in Hs by lia. discriminate.
    + rewrite IH. split; intros [k [Hk [Hsk [-> Hall]]]]; exists k.
      * repeat split; auto. intros j Hj.
        destruct (Nat.eq_dec j (S i)) as [->|Hne]; [exact Hs | apply Hall; lia].
      * assert (k <> S i) by (intros ->; congruence).
        repeat split; auto; [lia|]. intros j Hj. apply Hall. lia.
Qed.

Lemma repair_loop_none (lines : list jsstring) (i : nat) :
  repair_loop lines i = None <-> forall j, j <= i -> stops_at lines j = false.
Proof.
  induction i as [|i IH]; rewrite repair_loop_step.
  - rewrite stops_at_0. split; auto. intros _ j Hj.
    assert (j = 0) by lia. subst. apply stops_at_0.
  - destruct (stops_at lines (S i)) eqn:Hs.
    + split; [discriminate|]. intros H. rewrite H in Hs by lia. discriminate.
    + rewrite IH. split; intros H j Hj.
      * destruct (Nat.eq_dec j (S i)) as [->|Hne]; [exact Hs | apply H; lia].
      * apply H. lia.
Qed.

Lemma str_eqb_eq (a b : jsstring) : str_eqb a b = true <-> a = b.
Proof.
  revert b. induction a as [|x a IH]; intros [|y b]; simpl;
    try (split; [reflexivity | reflexivity]); try (split; discriminate).
  rewrite andb_true_iff, N.eqb_eq, IH.
  split; [intros [-> ->]; reflexivity | intros [= -> ->]; auto].
Qed.

Lemma str_eqb_refl (a : jsstring) : str_eqb a a = true.
Proof. now apply str_eqb_eq. Qed.

(** A text without trailing white space whose last line looks complete is
    its own repair candidate. *)
Lemma repairPartialToon_self (text : jsstring) (lastLine : jsstring) :
  text <> [] ->
  no_trailing_ws text = true ->
  last_elem (split_nl text) = Some lastLine ->
  looksComplete lastLine = true ->
  repairPartialToon text = Some text.
Proof.
  intros Hne Hws Hlast Hlc. unfold repairPartialToon.
  assert (Hlen : (length text =? 0) = false).
  { destruct text; [now elim Hne | reflexivity]. }
  assert (Htrim : (length (trim text) =? 0) = false).
  { unfold trim. rewrite (trimEnd_no_trailing _ Hws). unfold trimStart.
    destruct (dropWhile is_ws text) as [|x r] eqn:Hd; [|reflexivity].
    apply dropWhile_nil_all in Hd. unfold no_trailing_ws in Hws.
    destruct (rev text) as [|c r] eqn:Hr.
    - apply (f_equal (@rev _)) in Hr. rewrite rev_involutive in Hr.
      now elim Hne.
    - rewrite forallb_forall in Hd. rewrite (Hd c) in Hws; [discriminate|].
      apply in_rev. rewrite Hr. now left. }
  rewrite Hlen, Htrim. simpl orb. cbv iota zeta.
  rewrite repair_loop_step.
  assert (Hc : candidate (split_nl text) (length (split_nl text)) = text).
  { unfold candidate, slice0. rewrite firstn_all, join_split_nl.
    now apply trimEnd_no_trailing. }
  unfold stops_at. rewrite Hc, Hlen. unfold slice0. rewrite firstn_all, Hlast, Hlc.
  reflexivity.
Qed.

(* ===================================================================== *)
(** * Secure decode and the result wrapper *)
(* ===================================================================== *)

(** The three ways [secureToonParse] completes. *)
Lemma secureToonParse_cases (text : jsstring) :
  (exists e, decode text = Throw e
             /\ secureToonParse text = (Throw e, [EvDecode text]))
  \/ (exists obj, decode text = Ok obj
        /\ (is_object obj = false
            \/ (suspectProtoRx text = false /\ suspectConstructorRx text = false))
        /\ secureToonParse text = (Ok obj, [EvDecode text]))
  \/ (exists obj, decode text = Ok obj
        /\ is_object obj = true
        /\ (suspectProtoRx text = true \/ suspectConstructorRx text = true)
        /\ secureToonParse text = (filter obj, [EvDecode text; EvScan obj])).
Proof.
  unfold secureToonParse, call, bind.
  destruct (decode text) as [obj|e]; [|left; eauto].
  right. destruct (is_object obj) eqn:Ho; simpl negb; cbv iota.
  - destruct (suspectProtoRx text) eqn:Hp; simpl.
    + right. exists obj. auto.
    + destruct (suspectConstructorRx text) eqn:Hc; simpl.
      * right. exists obj. auto.
      * left. exists obj. auto.
  - left. exists obj. auto.
Qed.

(** Every run of [secureToonParse] calls the decoder once, on its text. *)
Lemma secureToonParse_decoded (text : jsstring) :
  decoded_texts (secureToonParse text) = [text].
Proof.
  destruct (secureToonParse_cases text)
    as [[e [_ ->]] | [[obj [_ [_ ->]]] | [obj [_ [_ [_ ->]]]]]]; reflexivity.
Qed.

(** Without a schema, [safeParseToon] turns the completion of
    [secureToonParse] into a result object and never throws. *)
Lemma safeParseToon_run (text : jsstring) :
  safeParseToon text None =
  (Ok match outcome_of (secureToonParse text) with
      | Ok v => PSuccess v v
      | Throw e => PFailure (normalize_safe text e) None
      end,
   calls_of (secureToonParse text)).
Proof.
  unfold safeParseToon, try_catch, bind, ret, outcome_of, calls_of, normalize_safe.
  destruct (secureToonParse text) as [[v|e] t]; simpl; now rewrite app_nil_r.
Qed.

Lemma safeParseToon_decoded (text : jsstring) :
  decoded_texts (safeParseToon text None) = [text].
Proof.
  rewrite safeParseToon_run. unfold decoded_texts. simpl calls_of.
  apply secureToonParse_decoded.
Qed.

Lemma full_parse_fails_spec (text : jsstring) :
  full_parse_fails text = true <->
  exists e, outcome_of (secureToonParse text) = Throw e.
Proof.
  unfold full_parse_fails. rewrite safeParseToon_run. simpl outcome_of.
  destruct (outcome_of (secureToonParse text)) as [v|e]; split.
  - discriminate.
  - intros [e H]. discriminate.
  - eauto.
  - reflexivity.
Qed.

Lemma decoded_texts_bind {A B} (m : M A) (k : A -> M B) (a : A) :
  outcome_of m = Ok a ->
  decoded_texts (bind m k) = decoded_texts m ++ decoded_texts (k a).
Proof.
  unfold decoded_texts, bind, outcome_of, calls_of.
  destruct m as [[a'|e] t]; simpl; [|discriminate].
  intros [= ->]. destruct (k a) as [r t']. simpl. apply flat_map_app.
Qed.

(** The partial decoder after a failed full parse: what it returns and
    which texts it has decoded. *)
Lemma parsePartialToon_after_failure (text : jsstring) :
  full_parse_fails text = true ->
  match repairPartialToon text with
  | Some c =>
      if str_eqb c text then
        outcome_of (parsePartialToon (Some text)) = Ok failed_outcome
        /\ decoded_texts (parsePartialToon (Some text)) = [text]
      else
        outcome_of (parsePartialToon (Some text)) =
          Ok match outcome_of (secureToonParse c) with
             | Ok v => mkOutcome (Some v) repaired_parse
             | Throw _ => failed_outcome
             end
        /\ decoded_texts (parsePartialToon (Some text)) = [text; c]
  | None =>
      outcome_of (parsePartialToon (Some text)) = Ok failed_outcome
      /\ decoded_texts (parsePartialToon (Some text)) = [text]
  end.
Proof.
  intros Hf. apply full_parse_fails_spec in Hf as [e He].
  unfold parsePartialToon.
  assert (Hd : forall (k : ParseResult -> M PartialParseOutcome),
    decoded_texts (bind (safeParseToon text None) k) =
    [text] ++ decoded_texts (k (PFailure (normalize_safe text e) None))).
  { intros k. rewrite <- safeParseToon_decoded. apply decoded_texts_bind.
    rewrite safeParseToon_run. simpl. now rewrite He. }
  assert (Ho : forall (k : ParseResult -> M PartialParseOutcome),
    outcome_of (bind (safeParseToon text None) k) =
    outcome_of (k (PFailure (normalize_safe text e) None))).
  { intros k. rewrite safeParseToon_run, He. unfold bind, outcome_of.
    destruct (k _). reflexivity. }
  destruct (repairPartialToon text) as [c|] eqn:Hr.
  - destruct (str_eqb c text) eqn:Hc; rewrite Ho, Hd; simpl negb; cbv iota.
    + split; reflexivity.
    + split.
      * rewrite safeParseToon_run. unfold bind, outcome_of. simpl.
        destruct (fst (secureToonParse c)); reflexivity.
      * simpl app. f_equal.
        assert (exists r, outcome_of (safeParseToon c None) = Ok r) as [r Hr2].
        { rewrite safeParseToon_run. simpl. eauto. }
        rewrite (decoded_texts_bind _ _ Hr2), safeParseToon_decoded.
        destruct r; reflexivity.
  - rewrite Ho, Hd. split; reflexivity.
Qed.

(* ===================================================================== *)
(** * Partial decoder *)
(* ===================================================================== *)

(** The partial decoder never throws. *)
Lemma parsePartialToon_total (input : option jsstring) :
  exists o, outcome_of (parsePartialToon input) = Ok o.
Proof.
  destruct input as [text|]; [|eexists; reflexivity].
  unfold parsePartialToon. rewrite safeParseToon_run.
  unfold bind, ret, outcome_of, calls_of.
  destruct (secureToonParse text) as [[v|e] t]; simpl; [eauto|].
  destruct (repairPartialToon text) as [c|]; [|simpl; eauto].
  destruct (str_eqb c text); simpl; [eauto|].
  rewrite safeParseToon_run. simpl.
  destruct (secureToonParse c) as [[v|e2] t2]; simpl; eauto.
Qed.

(** C10. A non-empty text without trailing white space, whose full parse
    fails and whose last line looks complete, is its own repair candidate:
    the retry is skipped, the outcome is failed-parse with no value, and the
    only text ever decoded is the original one. *)
Theorem C10_own_candidate_is_not_retried (text lastLine : jsstring) :
  text <> [] ->
  no_trailing_ws text = true ->
  full_parse_fails text = true ->
  last_elem (split_nl text) = Some lastLine ->
  looksComplete lastLine = true ->
  repairPartialToon text = Some text
  /\ outcome_of (parsePartialToon (Some text)) = Ok (mkOutcome None failed_parse)
  /\ decoded_texts (parsePartialToon (Some text)) = [text].
Proof.
  intros Hne Hws Hf Hlast Hlc.
  pose proof (repairPartialToon_self Hne Hws Hlast Hlc) as Hr.
  split; [exact Hr|].
  pose proof (parsePartialToon_after_failure text Hf) as H.
  rewrite Hr, str_eqb_refl in H. exact H.
Qed.

(** C1, as the code has it. After a failed full parse the search stops at
    the longest non-empty prefix whose last line looks complete; that one
    candidate is decoded (unless it is the original text), repaired-parse is
    reported exactly when its decode succeeds, and otherwise the outcome is
    failed-parse with no shorter prefix decoded. *)
Theorem C1_single_candidate_is_decoded (text : jsstring) :
  full_parse_fails text = true ->
  (forall c, repairPartialToon text = Some c ->
     exists k, k <= length (split_nl text)
       /\ stops_at (split_nl text) k = true
       /\ c = candidate (split_nl text) k
       /\ forall j, k < j <= length (split_nl text) ->
                    stops_at (split_nl text) j = false)
  /\ (forall v,
        outcome_of (parsePartialToon (Some text)) =
          Ok (mkOutcome (Some v) repaired_parse)
        <-> exists c, repairPartialToon text = Some c /\ c <> text
              /\ outcome_of (safeParseToon c None) = Ok (PSuccess v v))
  /\ ((forall c v, repairPartialToon text = Some c -> c <> text ->
         outcome_of (safeParseToon c None) <> Ok (PSuccess v v)) ->
      outcome_of (parsePartialToon (Some text)) = Ok failed_outcome)
  /\ (forall t, In t (decoded_texts (parsePartialToon (Some text))) ->
        t = text \/ (repairPartialToon text = Some t /\ t <> text)).
Proof.
  intros Hf. pose proof (parsePartialToon_after_failure text Hf) as H.
  split; [|split; [|split]].
  - intros c Hc. unfold repairPartialToon in Hc.
    destruct (_ || _); [discriminate|]. now apply repair_loop_some in Hc.
  - intros v. destruct (repairPartialToon text) as [c|].
    + destruct (str_eqb c text) eqn:Hc.
      * destruct H as [-> _]. split; [discriminate|].
        intros [c' [[= <-] [Hne _]]]. apply str_eqb_eq in Hc. contradiction.
      * destruct H as [-> _]. split.
        -- intros Ho. exists c. split; [reflexivity|]. split.
           ++ intros ->. rewrite str_eqb_refl in Hc. discriminate.
           ++ rewrite safeParseToon_run. simpl.
              destruct (outcome_of (secureToonParse c)); [|discriminate].
              now injection Ho as ->.
        -- intros [c' [[= <-] [_ Hs]]]. rewrite safeParseToon_run in Hs.
           simpl in Hs. destruct (outcome_of (secureToonParse c)); [|discriminate].
           now injection Hs as ->.
    + destruct H as [-> _]. split; [discriminate|]. intros [c [? _]]. discriminate.
  - intros Hno. destruct (repairPartialToon text) as [c|].
    + destruct (str_eqb c text) eqn:Hc; destruct H as [-> _]; [reflexivity|].
      destruct (outcome_of (secureToonParse c)) as [v|e] eqn:Hs; [|reflexivity].
      exfalso. apply (Hno c v eq_refl).
      * intros ->. rewrite str_eqb_refl in Hc. discriminate.
      * rewrite safeParseToon_run. simpl. now rewrite Hs.
    + now destruct H as [-> _].
  - intros t Ht. destruct (repairPartialToon text) as [c|].
    + destruct (str_eqb c text) eqn:Hc; destruct H as [_ Hd]; rewrite Hd in Ht.
      * destruct Ht as [<-|[]]. now left.
      * destruct Ht as [<-|[<-|[]]]; [now left|]. right. split; [reflexivity|].
        intros ->. rewrite str_eqb_refl in Hc. discriminate.
    + destruct H as [_ Hd]. rewrite Hd in Ht. destruct Ht as [<-|[]]. now left.
Qed.

(** C7. Undefined input gives the undefined-input state with no value and
    without any call; a string never gives that state, and an empty or
    white-space-only string is decoded like any other text: its outcome is
    successful-parse when the decode succeeds and failed-parse otherwise. *)
Theorem C7_undefined_input_only_for_undefined :
  parsePartialToon None = (Ok (mkOutcome None undefined_input), [])
  /\ (forall text o,
        outcome_of (parsePartialToon (Some text)) = Ok o ->
        state o <> undefined_input)
  /\ (forall text,
        trim text = [] ->
        decoded_texts (parsePartialToon (Some text)) = [text]
        /\ outcome_of (parsePartialToon (Some text)) =
             Ok match outcome_of (safeParseToon text None) with
                | Ok (PSuccess v _) => mkOutcome (Some v) successful_parse
                | _ => failed_outcome
                end).
Proof.
  split; [reflexivity|]. split.
  - intros text o. unfold parsePartialToon. rewrite safeParseToon_run.
    unfold bind, ret, outcome_of, calls_of.
    destruct (secureToonParse text) as [[v|e] t]; simpl.
    + intros [= <-]. discriminate.
    + destruct (repairPartialToon text) as [c|]; [|intros [= <-]; discriminate].
      destruct (str_eqb c text); simpl; [intros [= <-]; discriminate|].
      rewrite safeParseToon_run. simpl.
      destruct (secureToonParse c) as [[v|e2] t2]; simpl;
        intros [= <-]; discriminate.
  - intros text Htrim.
    assert (Hr : repairPartialToon text = None).
    { unfold repairPartialToon. rewrite Htrim. simpl.
      now rewrite orb_true_r. }
    destruct (full_parse_fails text) eqn:Hf.
    + pose proof (parsePartialToon_after_failure text Hf) as H.
      rewrite Hr in H. destruct H as [Ho Hd]. split; [exact Hd|].
      rewrite Ho. apply full_parse_fails_spec in Hf as [e He].
      rewrite safeParseToon_run. simpl. now rewrite He.
    + unfold full_parse_fails in Hf. unfold parsePartialToon.
      assert (Hs := safeParseToon_decoded text).
      destruct (safeParseToon text None) as [[[v rv|e rv]|e] t];
        simpl in Hf; try discriminate.
      split; [|reflexivity].
      unfold decoded_texts, bind, calls_of in *. simpl in *.
      now rewrite app_nil_r.
Qed.

(** C8. Whatever the input, the partial decoder returns an outcome in one
    of the four states, and the outcome carries a value exactly in the
    successful-parse and repaired-parse states; in the undefined-input and
    failed-parse states the value is undefined. *)
Theorem C8_value_defined_iff_parsed (input : option jsstring) :
  exists o,
    outcome_of (parsePartialToon input) = Ok o
    /\ (state o = undefined_input \/ state o = successful_parse
        \/ state o = repaired_parse \/ state o = failed_parse)
    /\ (value o <> None <->
        (state o = successful_parse \/ state o = repaired_parse))
    /\ (state o = undefined_input \/ state o = failed_parse <-> value o = None).
Proof.
  assert (Hu : forall st, (st = undefined_input \/ st = failed_parse) ->
     let o := mkOutcome None st in
     (state o = undefined_input \/ state o = successful_parse
        \/ state o = repaired_parse \/ state o = failed_parse)
    /\ (value o <> None <->
        (state o = successful_parse \/ state o = repaired_parse))
    /\ (state o = undefined_input \/ state o = failed_parse <-> value o = None)).
  { intros st [-> | ->]; simpl; repeat split; auto; try tauto;
      intros [H|H]; discriminate. }
  assert (Hd : forall v st, (st = successful_parse \/ st = repaired_parse) ->
     let o := mkOutcome (Some v) st in
     (state o = undefined_input \/ state o = successful_parse
        \/ state o = repaired_parse \/ state o = failed_parse)
    /\ (value o <> None <->
        (state o = successful_parse \/ state o = repaired_parse))
    /\ (state o = undefined_input \/ state o = failed_parse <-> value o = None)).
  { intros v st [-> | ->]; simpl; repeat split; auto; try discriminate;
      intros [H|H]; discriminate. }
  destruct input as [text|].
  - unfold parsePartialToon. rewrite safeParseToon_run.
    unfold bind, ret, outcome_of, calls_of.
    destruct (secureToonParse text) as [[v|e] t]; simpl.
    + eexists. split; [reflexivity|]. apply Hd. auto.
    + destruct (repairPartialToon text) as [c|].
      * destruct (str_eqb c text); simpl.
        -- eexists. split; [reflexivity|]. apply Hu. auto.
        -- rewrite safeParseToon_run. simpl.
           destruct (secureToonParse c) as [[v|e2] t2]; simpl;
             eexists; (split; [reflexivity|]); [apply Hd | apply Hu]; auto.
      * eexists. split; [reflexivity|]. apply Hu. auto.
  - eexists. split; [reflexivity|]. apply Hu. auto.
Qed.

(* ===================================================================== *)
(** * Secure decoder: the fast path *)
(* ===================================================================== *)

(** C3. When the grammar decoder succeeds, a root that is null or not an
    object or array is returned as it is; and when the text matches neither
    pre-screen pattern the decoded value is returned after the decoder call
    alone: the scan is not entered and no error is raised, whatever the
    decoded tree owns. *)
Theorem C3_fast_path_returns_decoded (text : jsstring) (obj : JSONValue) :
  decode text = Ok obj ->
  (is_object obj = false ->
     secureToonParse text = (Ok obj, [EvDecode text]))
  /\ (suspectProtoRx text = false -> suspectConstructorRx text = false ->
      secureToonParse text = (Ok obj, [EvDecode text])).
Proof.
  intros Hd. unfold secureToonParse, call, bind, ret. rewrite Hd. split.
  - intros ->. reflexivity.
  - intros -> ->. simpl. destruct (is_object obj); reflexivity.
Qed.

(* ===================================================================== *)
(** * The throwing wrapper *)
(* ===================================================================== *)

(** C9. An error thrown while decoding leaves [parseToon] as a
    [JSONParseError] that carries the text and the error as its cause,
    unless it already is a [JSONParseError] or a [TypeValidationError], which
    leaves as it is; a validation failure leaves as its
    [TypeValidationError]; and [parseToon] throws nothing else. *)
Theorem C9_parseToon_normalizes_errors (text : jsstring) (schema : option Schema) :
  (forall e0, outcome_of (secureToonParse text) = Throw e0 ->
     outcome_of (parseToon text schema) =
       Throw (if isJSONParseError e0 || isTypeValidationError e0 then e0
              else JSONParseError text e0))
  /\ (forall v sch cause,
        outcome_of (secureToonParse text) = Ok v ->
        schema = Some sch ->
        validate sch v = inr cause ->
        outcome_of (parseToon text schema) = Throw (TypeValidationError v cause))
  /\ (forall e, outcome_of (parseToon text schema) = Throw e ->
        (exists e0, outcome_of (secureToonParse text) = Throw e0
           /\ ((isJSONParseError e0 || isTypeValidationError e0 = true /\ e = e0)
               \/ (isJSONParseError e0 || isTypeValidationError e0 = false
                   /\ e = JSONParseError text e0)))
        \/ (exists v sch cause,
              outcome_of (secureToonParse text) = Ok v /\ schema = Some sch
              /\ validate sch v = inr cause /\ e = TypeValidationError v cause)).
Proof.
  unfold parseToon, try_catch, bind, outcome_of, validateTypes, ret, throw.
  destruct (secureToonParse text) as [[v|e0] t]; simpl; repeat split.
  - discriminate.
  - intros v' sch cause [= <-] -> Hv. rewrite Hv. reflexivity.
  - intros e. destruct schema as [sch|]; [|discriminate].
    destruct (validate sch v) as [v'|cause] eqn:Hv; [discriminate|].
    simpl. intros [= <-]. right. exists v, sch, cause. auto.
  - intros e [= <-]. destruct (_ || _); reflexivity.
  - discriminate.
  - intros e He. left. exists e0. split; [reflexivity|].
    destruct (isJSONParseError e0 || isTypeValidationError e0) eqn:Hk;
      simpl in He; injection He as <-; auto.
Qed.

(* ===================================================================== *)
(** * Orchestrator *)
(* ===================================================================== *)

Lemma parse_step_total (format : ObjectFormat) (text : jsstring) :
  exists r, outcome_of (parse_step format text) = Ok r.
Proof.
  destruct format; simpl; [eauto|]. rewrite safeParseToon_run. simpl. eauto.
Qed.

Lemma parse_step_no_repair (format : ObjectFormat) (text : jsstring) :
  List.filter is_repair (calls_of (parse_step format text)) = [].
Proof.
  destruct format; simpl; [reflexivity|]. rewrite safeParseToon_run.
  simpl calls_of.
  destruct (secureToonParse_cases text)
    as [[e [_ ->]] | [[obj [_ [_ ->]]] | [obj [_ [_ [_ ->]]]]]]; reflexivity.
Qed.

(** One attempt: it throws the terminal error of its failure, or the
    error the validator throws, or returns; and it never calls the repair
    collaborator. *)
Lemma attempt_run (text : jsstring) (os : OutputStrategy)
    (format : ObjectFormat) (ctx : GenerationContext) :
  (match attempt_failure text os format ctx with
   | Some (reason, cause) =>
       outcome_of (parseAndValidateObjectResult text os format ctx) =
         Throw (terminal reason cause text ctx)
   | None =>
       match validator_throws text os format ctx with
       | Some e =>
           outcome_of (parseAndValidateObjectResult text os format ctx) = Throw e
       | None =>
           exists r,
             outcome_of (parseAndValidateObjectResult text os format ctx) = Ok r
       end
   end)
  /\ List.filter is_repair
       (calls_of (parseAndValidateObjectResult text os format ctx)) = [].
Proof.
  unfold parseAndValidateObjectResult, attempt_failure, validator_throws.
  fold (parse_step format text).
  pose proof (parse_step_no_repair format text) as Hn.
  destruct (parse_step_total format text) as [r Hr].
  unfold outcome_of, calls_of, bind, call, throw, ret, terminal in *.
  destruct (parse_step format text) as [pr t]. simpl in *. subst pr.
  destruct r as [v rv|e rv]; simpl.
  - destruct (os v text (response ctx) (usage ctx)) as [[res|e]|e]; simpl;
      rewrite ?filter_app, ?Hn; simpl; eauto.
  - rewrite app_nil_r. auto.
Qed.

Lemma repair_cause_spec (e cause : error) :
  repair_cause e = Some cause <->
  repairable cause = true
  /\ exists message text r u f,
       e = NoObjectGeneratedError message cause text r u f.
Proof.
  unfold repair_cause. split.
  - destruct e; try discriminate.
    destruct (repairable e) eqn:Hg; [|discriminate].
    intros [= <-]. split; [exact Hg|]. eauto 6.
  - intros [Hg [message [text [r [u [f ->]]]]]]. now rewrite Hg.
Qed.

Lemma no_repair_not_in (t : jsstring) (c : error) (l : trace) :
  List.filter is_repair l = [] -> ~ In (EvRepair t c) l.
Proof.
  intros Hl Hin.
  assert (In (EvRepair t c) (List.filter is_repair l)) by (apply filter_In; auto).
  rewrite Hl in *. contradiction.
Qed.

(** The whole orchestrator, case by case. *)
Lemma with_repair_run (text : jsstring) (os : OutputStrategy)
    (repairText : option RepairTextFunction)
    (format : ObjectFormat) (ctx : GenerationContext) :
  let first := parseAndValidateObjectResult text os format ctx in
  let whole :=
    parseAndValidateObjectResultWithRepair text os repairText format ctx in
  match outcome_of first with
  | Ok r => whole = first
  | Throw e =>
      match repairText, repair_cause e with
      | Some repair, Some cause =>
          match repair text cause with
          | Ok (Some repaired) =>
              let second :=
                parseAndValidateObjectResult repaired os format ctx in
              whole = (outcome_of second,
                       calls_of first ++ EvRepair text cause :: calls_of second)
          | Ok None =>
              whole = (Throw e, calls_of first ++ [EvRepair text cause])
          | Throw e' =>
              whole = (Throw e', calls_of first ++ [EvRepair text cause])
          end
      | _, _ => whole = (Throw e, calls_of first)
      end
  end.
Proof.
  intros first whole. subst whole.
  unfold parseAndValidateObjectResultWithRepair. fold first.
  unfold outcome_of, calls_of, try_catch.
  destruct first as [[r|e] t]; simpl; [reflexivity|].
  destruct repairText as [repair|]; [|unfold throw; now rewrite app_nil_r].
  unfold repair_cause.
  destruct e; try (unfold throw; now rewrite app_nil_r).
  fold (repairable e). destruct (repairable e);
    [|unfold throw; now rewrite app_nil_r].
  unfold bind, call, throw.
  destruct (repair text e) as [[repaired|]|e']; simpl; try reflexivity.
  destruct (parseAndValidateObjectResult repaired os format ctx). reflexivity.
Qed.

(** C2. In every call the repair collaborator is invoked at most once; and
    when the collaborator, invoked on the text with some cause, returns
    null, the call throws the very error the first attempt threw, a
    [NoObjectGeneratedError] that carries that cause: the terminal error of
    the first attempt, with the original text and the context, unless the
    validator itself threw such an error. *)
Theorem C2_repair_once_and_null_rethrows (text : jsstring) (os : OutputStrategy)
    (repairText : option RepairTextFunction)
    (format : ObjectFormat) (ctx : GenerationContext) :
  repair_calls
    (parseAndValidateObjectResultWithRepair text os repairText format ctx) <= 1
  /\ (forall repair t cause,
        repairText = Some repair ->
        In (EvRepair t cause)
           (calls_of (parseAndValidateObjectResultWithRepair
                        text os repairText format ctx)) ->
        repair t cause = Ok None ->
        exists e,
          t = text
          /\ outcome_of (parseAndValidateObjectResult text os format ctx) =
               Throw e
          /\ outcome_of (parseAndValidateObjectResultWithRepair
                           text os repairText format ctx) =
               Throw e
          /\ (exists message text' r u f,
                e = NoObjectGeneratedError message cause text' r u f)
          /\ ((exists reason, e = terminal reason cause text ctx)
              \/ validator_throws text os format ctx = Some e)).
Proof.
  pose proof (with_repair_run text os repairText format ctx) as Hrun.
  destruct (attempt_run text os format ctx) as [Ho Hn].
  cbv zeta in Hrun. unfold repair_calls.
  destruct (outcome_of (parseAndValidateObjectResult text os format ctx))
    as [r|e] eqn:Hfirst.
  - rewrite Hrun, Hn. split; [simpl; lia|].
    intros repair' t c _ Hin. now apply no_repair_not_in in Hin.
  - destruct repairText as [repair|].
    + destruct (repair_cause e) as [cause|] eqn:Hc.
      * assert (Hlink : (exists reason, e = terminal reason cause text ctx)
                        \/ validator_throws text os format ctx = Some e).
        { destruct (attempt_failure text os format ctx) as [[reason cause']|].
          - left. injection Ho as Heq.
            rewrite Heq in Hc. unfold terminal, repair_cause in Hc.
            destruct (repairable cause'); [|discriminate].
            injection Hc as <-. eauto.
          - right. destruct (validator_throws text os format ctx) as [e'|].
            + now injection Ho as <-.
            + destruct Ho as [r Hr]. discriminate. }
        apply repair_cause_spec in Hc as [Hg Hshape].
        destruct (repair text cause) as [[repaired|]|e'] eqn:Hrep; rewrite Hrun;
          simpl calls_of; simpl outcome_of.
        -- destruct (attempt_run repaired os format ctx) as [_ Hn2].
           split.
           ++ rewrite filter_app, Hn. simpl. rewrite Hn2. simpl. lia.
           ++ intros repair' t c [= <-] Hin Hnone.
              apply in_app_or in Hin as [Hin|[Hin|Hin]].
              ** now apply no_repair_not_in in Hin.
              ** injection Hin as <- <-. congruence.
              ** now apply no_repair_not_in in Hin.
        -- split.
           ++ rewrite filter_app, Hn. simpl. lia.
           ++ intros repair' t c [= <-] Hin Hnone.
              apply in_app_or in Hin as [Hin|[Hin|[]]].
              ** now apply no_repair_not_in in Hin.
              ** injection Hin as <- <-. exists e. auto.
        -- split.
           ++ rewrite filter_app, Hn. simpl. lia.
           ++ intros repair' t c [= <-] Hin Hnone.
              apply in_app_or in Hin as [Hin|[Hin|[]]].
              ** now apply no_repair_not_in in Hin.
              ** injection Hin as <- <-. congruence.
      * rewrite Hrun. simpl calls_of. rewrite Hn. split; [simpl; lia|].
        intros repair' t c _ Hin. now apply no_repair_not_in in Hin.
    + rewrite Hrun. simpl calls_of. rewrite Hn. split; [simpl; lia|].
      intros repair' t c _ Hin. now apply no_repair_not_in in Hin.
Qed.

(** C6, as the code has it. The repair collaborator is invoked only when
    it is supplied and the first attempt threw a [NoObjectGeneratedError]
    whose cause is of the decode class or of the validation class; any
    other error the first attempt throws (a terminal error with another
    cause, or an error of another kind, such as one thrown by the
    validator) is thrown again as it is and nothing more is called, and so
    is every error when no collaborator is supplied; and after a repair the
    completion of the call is the completion of the second attempt, after
    exactly one repair: a parse or validation failure of the repaired text
    is the terminal error with the second cause and the repaired text, and
    an error thrown by the validator leaves as it is. *)
Theorem C6_repair_gate_and_final_second_attempt (text : jsstring)
    (os : OutputStrategy) (repairText : option RepairTextFunction)
    (format : ObjectFormat) (ctx : GenerationContext) :
  let first := parseAndValidateObjectResult text os format ctx in
  let whole :=
    parseAndValidateObjectResultWithRepair text os repairText format ctx in
  (forall t cause, In (EvRepair t cause) (calls_of whole) ->
     exists repair e,
       repairText = Some repair /\ t = text
       /\ outcome_of first = Throw e
       /\ repairable cause = true
       /\ exists message text' r u f,
            e = NoObjectGeneratedError message cause text' r u f)
  /\ (forall e,
        outcome_of first = Throw e ->
        repairText = None \/ repair_cause e = None ->
        whole = (Throw e, calls_of first))
  /\ (forall repair e cause repaired,
        repairText = Some repair ->
        outcome_of first = Throw e ->
        repair_cause e = Some cause ->
        repair text cause = Ok (Some repaired) ->
        let second := parseAndValidateObjectResult repaired os format ctx in
        outcome_of whole = outcome_of second
        /\ repair_calls whole = 1
        /\ (forall reason2 cause2,
              attempt_failure repaired os format ctx = Some (reason2, cause2) ->
              outcome_of whole = Throw (terminal reason2 cause2 repaired ctx))
        /\ (forall e2,
              validator_throws repaired os format ctx = Some e2 ->
              outcome_of whole = Throw e2)).
Proof.
  intros first whole.
  pose proof (with_repair_run text os repairText format ctx) as Hrun.
  destruct (attempt_run text os format ctx) as [_ Hn].
  fold first in Hrun, Hn. fold whole in Hrun. cbv zeta in Hrun.
  split; [|split].
  - intros t c Hin.
    destruct (outcome_of first) as [r|e] eqn:Hfirst.
    + rewrite Hrun in Hin. now apply no_repair_not_in in Hin.
    + destruct repairText as [repair|].
      * destruct (repair_cause e) as [cause|] eqn:Hc.
        -- apply repair_cause_spec in Hc as [Hg Hshape].
           assert (Hcase : In (EvRepair t c)
                             (calls_of first ++ [EvRepair text cause])
                           \/ exists repaired,
                                In (EvRepair t c)
                                  (calls_of (parseAndValidateObjectResult
                                               repaired os format ctx))).
           { destruct (repair text cause) as [[repaired|]|e'];
               rewrite Hrun in Hin; simpl calls_of in Hin; auto.
             apply in_app_or in Hin as [Hin|[Hin|Hin]].
             - left. apply in_or_app. now left.
             - left. apply in_or_app. right. now left.
             - right. eauto. }
           destruct Hcase as [Hin'|[repaired Hin']].
           ++ apply in_app_or in Hin' as [Hin'|[Hin'|[]]].
              ** now apply no_repair_not_in in Hin'.
              ** injection Hin' as <- <-. exists repair, e. auto.
           ++ destruct (attempt_run repaired os format ctx) as [_ Hn2].
              now apply no_repair_not_in in Hin'.
        -- rewrite Hrun in Hin. now apply no_repair_not_in in Hin.
      * rewrite Hrun in Hin. now apply no_repair_not_in in Hin.
  - intros e Hfirst Hgate. rewrite Hfirst in Hrun.
    destruct repairText as [repair|]; [|exact Hrun].
    destruct Hgate as [Hgate|Hgate]; [discriminate|].
    now rewrite Hgate in Hrun.
  - intros repair e cause repaired -> Hfirst Hc Hrep second.
    rewrite Hfirst, Hc, Hrep in Hrun. cbv zeta in Hrun. fold second in Hrun.
    destruct (attempt_run repaired os format ctx) as [Ho2 Hn2].
    fold second in Ho2, Hn2.
    rewrite Hrun. simpl outcome_of. split; [reflexivity|]. split; [|split].
    + unfold repair_calls. simpl calls_of.
      rewrite filter_app, Hn. simpl. now rewrite Hn2.
    + intros reason2 cause2 Hf2. rewrite Hf2 in Ho2. exact Ho2.
    + intros e2 Hv2.
      assert (Hnone : attempt_failure repaired os format ctx = None).
      { unfold attempt_failure, validator_throws in *.
        destruct (outcome_of (parse_step format repaired)) as [[v raw|e' raw]|e'];
          try discriminate.
        destruct (os v repaired (response ctx) (usage ctx)) as [[res|e']|e'];
          try discriminate. reflexivity. }
      rewrite Hnone, Hv2 in Ho2. exact Ho2.
Qed.

(* ===================================================================== *)
(** * The tree scan *)
(* ===================================================================== *)

Lemma owns_key_get_own (props : list (jsstring * JSONValue)) (key : jsstring) :
  owns_key props key =
  match get_own props key with Some _ => true | None => false end.
Proof.
  induction props as [|[k v] props IH]; simpl; [reflexivity|].
  destruct (str_eqb k key); simpl; auto.
Qed.

(** Away from a null constructor, a visit throws the forbidden-property
    error at a forbidden node and queues the composite children otherwise. *)
Lemma visit_spec (node : JSONValue) :
  null_constructor node = false ->
  visit node =
  if forbidden_node node then Throw (SyntaxError forbidden_message)
  else Ok (children node).
Proof.
  unfold null_constructor, forbidden_node, visit, children, owns.
  destruct node as [| b | z | str | elems | props]; try reflexivity.
  simpl. rewrite (owns_key_get_own props (js "constructor")).
  destruct (owns_key props (js "__proto__")); [reflexivity|].
  destruct (get_own props (js "constructor")) as [c|]; [|reflexivity].
  simpl. destruct c; simpl; try reflexivity; discriminate.
Qed.

Lemma scan_level_spec (nodes acc : list JSONValue) :
  existsb null_constructor nodes = false ->
  scan_level nodes acc =
  if existsb forbidden_node nodes then Throw (SyntaxError forbidden_message)
  else Ok (acc ++ flat_map children nodes).
Proof.
  revert acc. induction nodes as [|n nodes IH]; intros acc Hn; simpl.
  - now rewrite app_nil_r.
  - simpl in Hn. apply orb_false_elim in Hn as [Hn1 Hn2].
    rewrite (visit_spec _ Hn1). destruct (forbidden_node n); [reflexivity|].
    simpl. rewrite (IH _ Hn2). destruct (existsb forbidden_node nodes).
    + reflexivity.
    + now rewrite app_assoc.
Qed.

Lemma existsb_filter_object (p : JSONValue -> bool) (l : list JSONValue) :
  (forall x, is_object x = false -> p x = false) ->
  existsb p (List.filter is_object l) = existsb p l.
Proof.
  intros Hp. induction l as [|x l IH]; simpl; [reflexivity|].
  destruct (is_object x) eqn:Hx; simpl; rewrite IH; [reflexivity|].
  now rewrite (Hp x Hx).
Qed.

(** A property of composite nodes holds somewhere in a tree when it holds
    at the root or somewhere below a composite child. *)
Lemma any_node_children (p : JSONValue -> bool) (v : JSONValue) :
  (forall x, is_object x = false -> p x = false) ->
  any_node p v = p v || existsb (any_node p) (children v).
Proof.
  intros Hp.
  assert (Hq : forall x, is_object x = false -> any_node p x = false).
  { intros x Hx. destruct x; simpl in *; try discriminate;
      rewrite Hp; reflexivity. }
  unfold children.
  destruct v as [| b | z | str | elems | props]; simpl;
    try (now rewrite orb_false_r).
  - now rewrite (existsb_filter_object _ _ Hq).
  - rewrite (existsb_filter_object _ _ Hq). f_equal.
    induction props as [|[k x] props IH]; simpl; [reflexivity|].
    now rewrite IH.
Qed.

Lemma any_node_level (p : JSONValue -> bool) (nodes : list JSONValue) :
  (forall x, is_object x = false -> p x = false) ->
  existsb (any_node p) nodes =
  existsb p nodes || existsb (any_node p) (flat_map children nodes).
Proof.
  intros Hp. induction nodes as [|n nodes IH]; simpl; [reflexivity|].
  rewrite existsb_app, IH, (any_node_children _ n Hp).
  destruct (p n), (existsb (any_node p) (children n)), (existsb p nodes);
    reflexivity.
Qed.

Lemma forbidden_node_object (x : JSONValue) :
  is_object x = false -> forbidden_node x = false.
Proof. unfold forbidden_node. now intros ->. Qed.

Lemma null_constructor_object (x : JSONValue) :
  is_object x = false -> null_constructor x = false.
Proof. unfold null_constructor. now intros ->. Qed.

(** The loop over a queue none of whose trees holds a null constructor. *)
Lemma filter_loop_spec (next : list JSONValue) :
  existsb (any_node null_constructor) next = false ->
  filter_loop next =
  if existsb (any_node forbidden_node) next
  then Throw (SyntaxError forbidden_message)
  else Ok tt.
Proof.
  funelim (filter_loop next); intros Hnull; [reflexivity | | ];
    rewrite (any_node_level _ _ null_constructor_object) in Hnull;
    apply orb_false_elim in Hnull as [Hn1 Hn2];
    rewrite (any_node_level _ _ forbidden_node_object);
    pose proof (scan_level_spec _ [] Hn1) as Hspec;
    match goal with
    | Hs : scan_level _ _ = Ok _ |- _ => rewrite Hs in Hspec
    | Hs : scan_level _ _ = Throw _ |- _ => rewrite Hs in Hspec
    end;
    revert Hspec; destruct (existsb forbidden_node (n :: ns)); intros Hspec;
    try discriminate Hspec; injection Hspec as ->.
  - simpl app in *. simpl orb.
    match goal with IH : _ -> filter_loop _ = _ |- _ => now apply IH end.
  - reflexivity.
Qed.

(** Away from null constructors the scan does what the specification says:
    it throws the forbidden-property error exactly when some composite node
    of the tree is forbidden, and returns the value unchanged otherwise. *)
Lemma filter_spec (obj : JSONValue) :
  any_node null_constructor obj = false ->
  filter obj =
  if any_node forbidden_node obj then Throw (SyntaxError forbidden_message)
  else Ok obj.
Proof.
  intros Hnull. unfold filter. rewrite filter_loop_spec.
  - simpl. rewrite orb_false_r. destruct (any_node forbidden_node obj); reflexivity.
  - simpl. now rewrite Hnull.
Qed.

(* ===================================================================== *)
(** * The pre-screen patterns *)
(* ===================================================================== *)

Lemma strip_prefix_some (lit s rest : jsstring) :
  strip_prefix lit s = Some rest <-> s = lit ++ rest.
Proof.
  revert s. induction lit as [|a lit IH]; intros s; simpl.
  - split; [intros [= ->] | intros ->]; reflexivity.
  - destruct s as [|b s]; [split; discriminate|].
    destruct (N.eqb_spec a b) as [->|Hab].
    + rewrite IH. split; [intros -> | intros [= ->]]; reflexivity.
    + split; [discriminate | intros [= -> _]; now elim Hab].
Qed.

(** The pattern matches exactly the texts that hold the quoted key, then
    white space, then a colon. *)
Lemma key_rx_test_spec (lit s : jsstring) :
  key_rx_test lit s = true <->
  exists pre ws post,
    s = pre ++ lit ++ ws ++ ch_colon :: post /\ forallb is_ws ws = true.
Proof.
  assert (Hat : forall t, key_rx_at lit t = true <->
            exists ws post, t = lit ++ ws ++ ch_colon :: post
                            /\ forallb is_ws ws = true).
  { intros t. unfold key_rx_at. split.
    - destruct (strip_prefix lit t) as [rest|] eqn:Hp; [|discriminate].
      apply strip_prefix_some in Hp as ->.
      destruct (dropWhile_suffix is_ws rest) as [ws [Hr Hws]].
      destruct (dropWhile is_ws rest) as [|c post]; [discriminate|].
      intros Hc. apply N.eqb_eq in Hc as ->. exists ws, post.
      now rewrite <- Hr.
    - intros [ws [post [-> Hws]]].
      assert (Hp : strip_prefix lit (lit ++ ws ++ ch_colon :: post)
                   = Some (ws ++ ch_colon :: post))
        by now apply strip_prefix_some.
      rewrite Hp, (dropWhile_app_stop is_ws ws ch_colon post eq_refl Hws).
      reflexivity. }
  induction s as [|c s IH]; simpl; rewrite orb_true_iff, Hat.
  - split.
    + intros [[ws [post [H Hws]]]|H]; [|discriminate].
      exists [], ws, post. auto.
    + intros [pre [ws [post [H Hws]]]]. left.
      destruct pre; [|discriminate]. exists ws, post. auto.
  - rewrite IH. split.
    + intros [[ws [post [H Hws]]] | [pre [ws [post [H Hws]]]]].
      * exists [], ws, post. auto.
      * exists (c :: pre), ws, post. simpl. now rewrite H.
    + intros [pre [ws [post [H Hws]]]]. destruct pre as [|c' pre].
      * left. exists ws, post. auto.
      * right. injection H as -> ->. exists pre, ws, post. auto.
Qed.

(* ===================================================================== *)
(** * The tree scan, without assumptions *)
(* ===================================================================== *)

(** What a visit does, in every case. *)
Lemma visit_cases (node : JSONValue) :
  (visit node = Ok (children node)
   /\ forbidden_node node = false /\ null_constructor node = false)
  \/ (visit node = Throw (SyntaxError forbidden_message)
      /\ forbidden_node node = true)
  \/ (visit node = Throw (TypeError null_to_object_message)
      /\ null_constructor node = true).
Proof.
  unfold null_constructor, forbidden_node, visit, children, owns.
  destruct node as [| b | z | str | elems | props];
    try (left; repeat split; reflexivity).
  simpl. rewrite (owns_key_get_own props (js "constructor")).
  destruct (owns_key props (js "__proto__")); [right; left; auto|].
  destruct (get_own props (js "constructor")) as [c|]; [|left; auto].
  simpl. destruct c; simpl; auto.
  destruct (owns_key _ _); auto.
Qed.

Lemma scan_level_cases (nodes acc : list JSONValue) :
  (scan_level nodes acc = Ok (acc ++ flat_map children nodes)
   /\ existsb forbidden_node nodes = false
   /\ existsb null_constructor nodes = false)
  \/ (scan_level nodes acc = Throw (SyntaxError forbidden_message)
      /\ existsb forbidden_node nodes = true)
  \/ (scan_level nodes acc = Throw (TypeError null_to_object_message)
      /\ existsb null_constructor nodes = true).
Proof.
  revert acc. induction nodes as [|n nodes IH]; intros acc; simpl.
  - left. now rewrite app_nil_r.
  - destruct (visit_cases n) as [[-> [-> ->]] | [[-> ->] | [-> ->]]]; simpl.
    + destruct (IH (acc ++ children n)) as [[-> [-> ->]] | [[-> ->] | [-> ->]]].
      * left. now rewrite app_assoc.
      * right. left. auto.
      * right. right. auto.
    + right. left. auto.
    + right. right. split; [reflexivity | apply orb_true_r || reflexivity].
Qed.

Lemma filter_loop_cases (next : list JSONValue) :
  (filter_loop next = Ok tt
   /\ existsb (any_node forbidden_node) next = false
   /\ existsb (any_node null_constructor) next = false)
  \/ (filter_loop next = Throw (SyntaxError forbidden_message)
      /\ existsb (any_node forbidden_node) next = true)
  \/ (filter_loop next = Throw (TypeError null_to_object_message)
      /\ existsb (any_node null_constructor) next = true).
Proof.
  funelim (filter_loop next); [left; auto | | ];
    rewrite (any_node_level _ (n :: ns) null_constructor_object);
    rewrite (any_node_level _ (n :: ns) forbidden_node_object);
    pose proof (scan_level_cases (n :: ns) []) as Hc;
    match goal with
    | Hs : scan_level _ _ = Ok _ |- _ => rewrite Hs in Hc
    | Hs : scan_level _ _ = Throw _ |- _ => rewrite Hs in Hc
    end;
    destruct Hc as [[Hc [Hf Hn]] | [[Hc Hf] | [Hc Hn]]];
    try discriminate Hc; rewrite ?Hf, ?Hn, ?orb_true_r; simpl orb.
  - injection Hc as ->. simpl app in *.
    match goal with IH : _ \/ _ |- _ => exact IH end.
  - injection Hc as ->. right. left. auto.
  - injection Hc as ->. right. right. auto.
Qed.

Lemma filter_returns_same (obj v : JSONValue) : filter obj = Ok v -> v = obj.
Proof.
  unfold filter. destruct (filter_loop [obj]); [now intros [= <-] | discriminate].
Qed.

Lemma filter_clean (obj : JSONValue) :
  any_node forbidden_node obj = false ->
  any_node null_constructor obj = false ->
  filter obj = Ok obj.
Proof.
  intros Hf Hn. unfold filter.
  destruct (filter_loop_cases [obj]) as [[-> _] | [[_ H] | [_ H]]];
    [reflexivity | |]; simpl in H; rewrite orb_false_r in H; congruence.
Qed.

(** X1. The scan has three completions and no other: it returns the very
    value it was given, exactly when no composite node of the tree is
    forbidden and none owns a null constructor; or it throws the
    forbidden-property error, and then some node is forbidden; or it throws
    the null-conversion TypeError, and then some node owns a null
    constructor.  A tree with a forbidden node is never returned. *)
Theorem filter_completions (obj : JSONValue) :
  (filter obj = Ok obj <->
     any_node forbidden_node obj = false
     /\ any_node null_constructor obj = false)
  /\ (forall v, filter obj = Ok v -> v = obj)
  /\ (forall e, filter obj = Throw e ->
        (e = SyntaxError forbidden_message
         /\ any_node forbidden_node obj = true)
        \/ (e = TypeError null_to_object_message
            /\ any_node null_constructor obj = true)).
Proof.
  unfold filter.
  destruct (filter_loop_cases [obj]) as [[-> [Hf Hn]] | [[-> Hf] | [-> Hn]]];
    simpl in *; rewrite orb_false_r in *.
  - split; [split; auto|]. split; [now intros v [= <-] | discriminate].
  - split; [split; [discriminate | intros [H _]; congruence]|].
    split; [discriminate|]. intros e [= <-]. left. auto.
  - split; [split; [discriminate | intros [_ H]; congruence]|].
    split; [discriminate|]. intros e [= <-]. right. auto.
Qed.

(* ===================================================================== *)
(** * The secure decoder as a whole *)
(* ===================================================================== *)

(** X3. A text is screened for [__proto__] (for [constructor]) exactly when
    it holds the key in double quotes, then any white space, then a colon;
    a key written without quotes is never screened. *)
Theorem suspect_patterns_spec (text : jsstring) :
  (suspectProtoRx text = true <->
     exists pre ws post,
       text = pre ++ quoted "__proto__" ++ ws ++ ch_colon :: post
       /\ forallb is_ws ws = true)
  /\ (suspectConstructorRx text = true <->
        exists pre ws post,
          text = pre ++ quoted "constructor" ++ ws ++ ch_colon :: post
          /\ forallb is_ws ws = true).
Proof. split; apply key_rx_test_spec. Qed.

(** X4. [secureToonParse] calls the decoder exactly once, on its text; a
    value it returns is the decoder's value; an error it throws is the
    decoder's error or the error of the scan; and the scan is entered only
    on a decoded object or array whose text matches one of the patterns. *)
Theorem secureToonParse_discipline (text : jsstring) :
  decoded_texts (secureToonParse text) = [text]
  /\ (forall v, outcome_of (secureToonParse text) = Ok v -> decode text = Ok v)
  /\ (forall e, outcome_of (secureToonParse text) = Throw e ->
        decode text = Throw e
        \/ exists obj, decode text = Ok obj /\ filter obj = Throw e)
  /\ (forall o, In (EvScan o) (calls_of (secureToonParse text)) ->
        decode text = Ok o /\ is_object o = true
        /\ (suspectProtoRx text = true \/ suspectConstructorRx text = true)).
Proof.
  split; [apply secureToonParse_decoded|].
  destruct (secureToonParse_cases text)
    as [[e [Hd ->]] | [[obj [Hd [Hc ->]]] | [obj [Hd [Ho [Hp ->]]]]]];
    simpl; (split; [|split]).
  - discriminate.
  - intros e' [= <-]. now left.
  - intros o [H|[]]. discriminate.
  - now intros v [= <-].
  - discriminate.
  - intros o [H|[]]. discriminate.
  - intros v Hv. now rewrite (filter_returns_same _ Hv).
  - intros e He. right. exists obj. auto.
  - intros o [H|[H|[]]]; [discriminate|]. injection H as <-. auto.
Qed.

(** X5. A decoded tree that holds no forbidden node and no null
    constructor is returned as decoded, whether or not the text matches a
    pattern. *)
Theorem clean_tree_always_passes (text : jsstring) (obj : JSONValue) :
  decode text = Ok obj ->
  any_node forbidden_node obj = false ->
  any_node null_constructor obj = false ->
  outcome_of (secureToonParse text) = Ok obj.
Proof.
  intros Hd Hf Hn.
  destruct (secureToonParse_cases text)
    as [[e [Hd' _]] | [[o [Hd' [_ ->]]] | [o [Hd' [_ [_ ->]]]]]];
    rewrite Hd in Hd'; try discriminate; injection Hd' as <-.
  - reflexivity.
  - simpl. now apply filter_clean.
Qed.

(** X6. Pollution is rejected along every entry point: when the text
    matches a pattern and the decoded tree holds a forbidden node and no
    null constructor, [secureToonParse] throws the forbidden-property error,
    [parseToon] throws it wrapped in a [JSONParseError] with the text,
    [safeParseToon] returns that error as a failure, and [isParsableToon]
    answers false. *)
Theorem pollution_is_rejected (text : jsstring) (obj : JSONValue) :
  decode text = Ok obj ->
  suspectProtoRx text = true \/ suspectConstructorRx text = true ->
  any_node forbidden_node obj = true ->
  any_node null_constructor obj = false ->
  let rejected := JSONParseError text (SyntaxError forbidden_message) in
  outcome_of (secureToonParse text) = Throw (SyntaxError forbidden_message)
  /\ (forall schema, outcome_of (parseToon text schema) = Throw rejected)
  /\ outcome_of (safeParseToon text None) = Ok (PFailure rejected None)
  /\ outcome_of (isParsableToon text) = Ok false.
Proof.
  intros Hd Hp Hf Hn rejected.
  assert (Hobj : is_object obj = true).
  { destruct obj; simpl in Hf; try discriminate; reflexivity. }
  assert (Hs : secureToonParse text =
               (Throw (SyntaxError forbidden_message), [EvDecode text; EvScan obj])).
  { destruct (secureToonParse_cases text)
      as [[e [Hd' _]] | [[o [Hd' [Hc _]]] | [o [Hd' [_ [_ ->]]]]]];
      rewrite Hd in Hd'; try discriminate; injection Hd' as <-.
    - destruct Hc as [Hc|[Hc1 Hc2]]; [congruence|].
      destruct Hp; congruence.
    - now rewrite (filter_spec _ Hn), Hf. }
  split; [now rewrite Hs|]. split; [|split].
  - intros schema. unfold parseToon, try_catch, bind. now rewrite Hs.
  - rewrite safeParseToon_run, Hs. reflexivity.
  - unfold isParsableToon, try_catch, bind. now rewrite Hs.
Qed.

(** X7. Without a schema [safeParseToon] never throws.  A success carries
    the decoded value both as value and as raw value; a failure carries no
    raw value and its error is always a [JSONParseError]: the thrown error
    itself when it already is one, and otherwise the thrown error wrapped
    together with the text. *)
Theorem safeParseToon_results (text : jsstring) :
  exists r,
    outcome_of (safeParseToon text None) = Ok r
    /\ match r with
       | PSuccess v raw =>
           raw = v /\ outcome_of (secureToonParse text) = Ok v
       | PFailure e raw =>
           raw = None /\ isJSONParseError e = true
           /\ exists e0, outcome_of (secureToonParse text) = Throw e0
                /\ (if isJSONParseError e0 then e = e0
                    else e = JSONParseError text e0)
       end.
Proof.
  rewrite safeParseToon_run. simpl outcome_of.
  destruct (outcome_of (secureToonParse text)) as [v|e0]; eexists;
    (split; [reflexivity|]); simpl.
  - auto.
  - split; [reflexivity|]. unfold normalize_safe.
    destruct (isJSONParseError e0) eqn:Hk; split; auto;
      exists e0; rewrite Hk; auto.
Qed.

(** X8. [isParsableToon] never throws and calls the decoder exactly once;
    it answers true exactly when [secureToonParse] returns, which is
    exactly when [safeParseToon] succeeds and exactly when the partial
    decoder reports successful-parse. *)
Theorem isParsableToon_agrees (input : jsstring) :
  decoded_texts (isParsableToon input) = [input]
  /\ exists b,
       outcome_of (isParsableToon input) = Ok b
       /\ (b = true <-> exists v, outcome_of (secureToonParse input) = Ok v)
       /\ (b = true <-> full_parse_fails input = false)
       /\ (b = true <->
           exists v, outcome_of (parsePartialToon (Some input)) =
                       Ok (mkOutcome (Some v) successful_parse)).
Proof.
  pose proof (secureToonParse_decoded input) as Hd.
  unfold full_parse_fails, parsePartialToon. rewrite safeParseToon_run.
  unfold isParsableToon, try_catch, bind, ret, outcome_of, calls_of,
    decoded_texts in *.
  destruct (secureToonParse input) as [[v|e] t]; simpl in *.
  - rewrite !app_nil_r. split; [exact Hd|]. exists true.
    repeat split; eauto.
  - rewrite !app_nil_r. split; [exact Hd|]. exists false.
    split; [reflexivity|]. split; [|split]; split; try discriminate.
    + intros [v H]. discriminate.
    + intros [v H]. destruct (repairPartialToon input) as [c|].
      * destruct (str_eqb c input); simpl in H; [discriminate|].
        rewrite safeParseToon_run in H. simpl in H.
        destruct (secureToonParse c) as [[v'|e'] t']; discriminate.
      * discriminate.
Qed.

(** X9. The partial decoder reports successful-parse with a value exactly
    when the secure decode of the whole text returns that value; it then
    has called the decoder once and has attempted no repair. *)
Theorem parsePartialToon_success (text : jsstring) (v : JSONValue) :
  (outcome_of (parsePartialToon (Some text)) =
     Ok (mkOutcome (Some v) successful_parse)
   <-> outcome_of (secureToonParse text) = Ok v)
  /\ (outcome_of (secureToonParse text) = Ok v ->
      decoded_texts (parsePartialToon (Some text)) = [text]).
Proof.
  pose proof (secureToonParse_decoded text) as Hd.
  unfold parsePartialToon. rewrite safeParseToon_run.
  unfold bind, ret, outcome_of, calls_of, decoded_texts in *.
  destruct (secureToonParse text) as [[v'|e] t]; simpl in *.
  - rewrite app_nil_r. split; [split; now intros [= <-] | auto].
  - split; [split|]; try discriminate.
    destruct (repairPartialToon text) as [c|]; [|discriminate].
    destruct (str_eqb c text); simpl; [discriminate|].
    rewrite safeParseToon_run. simpl.
    destruct (secureToonParse c) as [[v''|e'] t']; discriminate.
Qed.

(* ===================================================================== *)
(** * The repair candidate *)
(* ===================================================================== *)

(** The first [k >= 1] lines, joined, are the joined lines up to a line
    break. *)
Lemma join_nl_firstn (ls : list jsstring) (k : nat) :
  1 <= k ->
  exists tail,
    join_nl ls = join_nl (firstn k ls) ++ tail
    /\ (tail = [] \/ exists tail', tail = ch_newline :: tail').
Proof.
  revert k. induction ls as [|l rest IH]; intros k Hk.
  - exists []. rewrite firstn_nil. auto.
  - destruct k as [|k]; [lia|]. simpl firstn.
    destruct rest as [|r rs].
    + rewrite firstn_nil. exists []. rewrite app_nil_r. auto.
    + destruct k as [|k].
      * simpl. exists (ch_newline :: join_nl (r :: rs)). eauto.
      * destruct (IH (S k) ltac:(lia)) as [tail [Hj Ht]].
        exists tail. split; [|exact Ht].
        change (join_nl (l :: r :: rs)) with (l ++ ch_newline :: join_nl (r :: rs)).
        rewrite Hj. simpl firstn.
        change (join_nl (l :: r :: firstn k rs))
          with (l ++ ch_newline :: join_nl (r :: firstn k rs)).
        now rewrite <- app_assoc.
Qed.

Lemma is_ws_newline : is_ws ch_newline = true.
Proof. reflexivity. Qed.

(** A candidate at which the search stops is a non-empty prefix of the
    text, cut at white space. *)
Lemma candidate_prefix (text : jsstring) (k : nat) :
  stops_at (split_nl text) k = true ->
  let c := candidate (split_nl text) k in
  c <> [] /\ no_trailing_ws c = true
  /\ exists rest, text = c ++ rest
       /\ (rest = [] \/ exists w rest', rest = w :: rest' /\ is_ws w = true).
Proof.
  intros Hs c. subst c.
  assert (Hk : 1 <= k).
  { destruct k; [rewrite stops_at_0 in Hs; discriminate | lia]. }
  unfold stops_at in Hs. apply andb_prop in Hs as [Hlen _].
  split.
  - intros E. rewrite E in Hlen. discriminate.
  - split; [apply trimEnd_last_not_ws|].
    unfold candidate, slice0.
    destruct (join_nl_firstn (split_nl text) Hk) as [tail [Hj Ht]].
    rewrite join_split_nl in Hj.
    destruct (trimEnd_split (join_nl (firstn k (split_nl text)))) as [ws [Hw1 Hw2]].
    exists (ws ++ tail). split.
    + rewrite app_assoc, <- Hw1. exact Hj.
    + destruct ws as [|w ws].
      * simpl. destruct Ht as [->|[tail' ->]]; [now left|].
        right. exists ch_newline, tail'. auto.
      * right. exists w, (ws ++ tail). simpl in Hw2.
        apply andb_prop in Hw2 as [Hw _]. auto.
Qed.

(** X10. [repairPartialToon] answers null on an empty or blank text.  A
    candidate it returns is never empty, has no trailing white space, and is
    a prefix of the text that ends where the text has white space (a line
    break included) or ends: nothing is added, reordered or cut inside a
    word. *)
Theorem repairPartialToon_shape (text : jsstring) :
  (trim text = [] -> repairPartialToon text = None)
  /\ forall c, repairPartialToon text = Some c ->
       c <> [] /\ no_trailing_ws c = true
       /\ exists rest, text = c ++ rest
            /\ (rest = [] \/ exists w rest', rest = w :: rest' /\ is_ws w = true).
Proof.
  split.
  - intros Ht. unfold repairPartialToon. rewrite Ht. simpl.
    now rewrite orb_true_r.
  - intros c Hc. unfold repairPartialToon in Hc.
    destruct (_ || _); [discriminate|].
    apply repair_loop_some in Hc as [k [_ [Hs [-> _]]]].
    now apply candidate_prefix.
Qed.

(** X11. A value reported as repaired-parse is the secure decode of a
    non-empty proper prefix of the text, after the decode of the whole text
    has failed; the decoder has then been called twice, on the text and on
    that prefix. *)
Theorem repaired_value_is_prefix_decode (text : jsstring) (v : JSONValue) :
  outcome_of (parsePartialToon (Some text)) =
    Ok (mkOutcome (Some v) repaired_parse) ->
  exists c rest,
    text = c ++ rest /\ c <> [] /\ rest <> []
    /\ full_parse_fails text = true
    /\ outcome_of (secureToonParse c) = Ok v
    /\ decoded_texts (parsePartialToon (Some text)) = [text; c].
Proof.
  intros Ho.
  destruct (full_parse_fails text) eqn:Hf.
  - pose proof (parsePartialToon_after_failure text Hf) as H.
    destruct (repairPartialToon text) as [c|] eqn:Hr.
    + destruct (str_eqb c text) eqn:Hc.
      * destruct H as [H _]. rewrite H in Ho. discriminate.
      * destruct H as [H Hd]. rewrite H in Ho.
        assert (Hshape : c <> [] /\ exists rest, text = c ++ rest).
        { unfold repairPartialToon in Hr. destruct (_ || _); [discriminate|].
          apply repair_loop_some in Hr as [k [_ [Hs [-> _]]]].
          destruct (candidate_prefix text k Hs) as [H1 [_ [rest [H2 _]]]].
          eauto. }
        destruct Hshape as [Hne [rest Ht]].
        exists c, rest. repeat split; auto.
        -- intros ->. rewrite app_nil_r in Ht. subst c.
           rewrite str_eqb_refl in Hc. discriminate.
        -- destruct (outcome_of (secureToonParse c)); [|discriminate].
           now injection Ho as ->.
    + destruct H as [H _]. rewrite H in Ho. discriminate.
  - exfalso. unfold full_parse_fails in Hf. unfold parsePartialToon in Ho.
    unfold bind, ret, outcome_of in *.
    destruct (safeParseToon text None) as [[[v' rv|e rv]|e] t];
      simpl in *; discriminate.
Qed.

(** X12. The partial decoder never throws, whatever the decoder or the
    scan throw, and it calls the decoder at most twice: first on the whole
    text, and then at most once more, on the repair candidate when that
    differs from the text. *)
Theorem parsePartialToon_budget (text : jsstring) :
  (exists o, outcome_of (parsePartialToon (Some text)) = Ok o)
  /\ (decoded_texts (parsePartialToon (Some text)) = [text]
      \/ exists c,
           repairPartialToon text = Some c /\ c <> text
           /\ decoded_texts (parsePartialToon (Some text)) = [text; c]).
Proof.
  split; [apply parsePartialToon_total|].
  destruct (full_parse_fails text) eqn:Hf.
  - pose proof (parsePartialToon_after_failure text Hf) as H.
    destruct (repairPartialToon text) as [c|] eqn:Hr.
    + destruct (str_eqb c text) eqn:Hc; destruct H as [_ Hd]; [now left|].
      right. exists c. repeat split; auto.
      intros ->. rewrite str_eqb_refl in Hc. discriminate.
    + now left.
  - left. unfold full_parse_fails in Hf.
    pose proof (safeParseToon_decoded text) as Hd.
    unfold parsePartialToon, bind, ret, outcome_of, calls_of, decoded_texts in *.
    destruct (safeParseToon text None) as [[[v' rv|e rv]|e] t];
      simpl in *; try discriminate.
    now rewrite app_nil_r.
Qed.

(* ===================================================================== *)
(** * More on the orchestrator *)
(* ===================================================================== *)

Lemma attempt_failure_cases (text : jsstring) (os : OutputStrategy)
    (format : ObjectFormat) (ctx : GenerationContext) (reason : string)
    (cause : error) :
  attempt_failure text os format ctx = Some (reason, cause) ->
  (reason = could_not_parse
   /\ exists raw, outcome_of (parse_step format text) = Ok (PFailure cause raw))
  \/ (reason = did_not_match
      /\ exists v raw,
           outcome_of (parse_step format text) = Ok (PSuccess v raw)
           /\ os v text (response ctx) (usage ctx) = Ok (VFailure cause)).
Proof.
  unfold attempt_failure.
  destruct (parse_step_total format text) as [r ->].
  destruct r as [v raw|e raw].
  - destruct (os v text (response ctx) (usage ctx)) as [[res|e]|e] eqn:Hos;
      try discriminate.
    intros [= <- <-]. right. split; [reflexivity|]. exists v, raw. auto.
  - intros [= <- <-]. left. split; [reflexivity|]. eauto.
Qed.

Lemma validator_throws_cases (text : jsstring) (os : OutputStrategy)
    (format : ObjectFormat) (ctx : GenerationContext) (e : error) :
  validator_throws text os format ctx = Some e <->
  exists v raw,
    outcome_of (parse_step format text) = Ok (PSuccess v raw)
    /\ os v text (response ctx) (usage ctx) = Throw e.
Proof.
  unfold validator_throws.
  destruct (parse_step_total format text) as [r ->].
  destruct r as [v raw|e' raw].
  - destruct (os v text (response ctx) (usage ctx)) as [res|e'] eqn:Hos; split.
    + discriminate.
    + intros [v' [raw' [[= <- <-] H]]]. congruence.
    + intros [= <-]. eauto.
    + intros [v' [raw' [[= <- <-] H]]]. congruence.
  - split; [discriminate|]. intros [v' [raw' [H _]]]. discriminate.
Qed.

(** X13. One attempt returns a result exactly when the parse step of its
    format succeeds and the validator accepts the parsed value, and the
    result is the validator's.  The validator is called only on the value
    parsed from the text it is given; in TOON format the JSON parser is
    never called, and in JSON format the TOON decoder is never called. *)
Theorem attempt_success_and_calls (text : jsstring) (os : OutputStrategy)
    (format : ObjectFormat) (ctx : GenerationContext) :
  let attempt := parseAndValidateObjectResult text os format ctx in
  (forall r, outcome_of attempt = Ok r <->
     exists v raw,
       outcome_of (parse_step format text) = Ok (PSuccess v raw)
       /\ os v text (response ctx) (usage ctx) = Ok (VSuccess r))
  /\ (forall v t, In (EvValidateFinal v t) (calls_of attempt) ->
        t = text
        /\ exists raw, outcome_of (parse_step format text) = Ok (PSuccess v raw))
  /\ (format = format_toon -> forall t, ~ In (EvParseJSON t) (calls_of attempt))
  /\ (format = format_json -> decoded_texts attempt = []).
Proof.
  intros attempt. subst attempt. unfold parseAndValidateObjectResult.
  fold (parse_step format text).
  assert (Htoon : format = format_toon ->
            forall t, ~ In (EvParseJSON t) (calls_of (parse_step format text))).
  { intros -> t. simpl. rewrite safeParseToon_run. simpl calls_of.
    destruct (secureToonParse_cases text)
      as [[e [_ ->]] | [[obj [_ [_ ->]]] | [obj [_ [_ [_ ->]]]]]]; simpl;
      intuition discriminate. }
  assert (Hjson : format = format_json ->
            decoded_texts (parse_step format text) = []).
  { intros ->. reflexivity. }
  assert (Hval : forall v t, ~ In (EvValidateFinal v t)
                               (calls_of (parse_step format text))).
  { intros v t. destruct format; simpl.
    - intuition discriminate.
    - rewrite safeParseToon_run. simpl calls_of.
      destruct (secureToonParse_cases text)
        as [[e [_ ->]] | [[obj [_ [_ ->]]] | [obj [_ [_ [_ ->]]]]]]; simpl;
        intuition discriminate. }
  destruct (parse_step_total format text) as [pr Hpr].
  unfold outcome_of, calls_of, decoded_texts, bind, call, throw, ret in *.
  destruct (parse_step format text) as [x t]. simpl in *. subst x.
  destruct pr as [v raw|e raw]; simpl.
  - assert (Hcalls :
      (forall v' t', In (EvValidateFinal v' t') (t ++ [EvValidateFinal v text]) ->
         t' = text /\ exists raw', Ok (PSuccess v raw) = Ok (PSuccess v' raw'))
      /\ (format = format_toon ->
          forall t', ~ In (EvParseJSON t') (t ++ [EvValidateFinal v text]))
      /\ (format = format_json ->
          flat_map (fun ev => match ev with EvDecode t0 => [t0] | _ => [] end)
            (t ++ [EvValidateFinal v text]) = [])).
    { split; [|split].
      - intros v' t' Hin. apply in_app_or in Hin as [Hin|[Hin|[]]].
        + now apply Hval in Hin.
        + injection Hin as <- <-. eauto.
      - intros Hf t' Hin. apply in_app_or in Hin as [Hin|[Hin|[]]].
        + now apply (Htoon Hf) in Hin.
        + discriminate.
      - intros Hf. rewrite flat_map_app, (Hjson Hf). reflexivity. }
    destruct (os v text (response ctx) (usage ctx)) as [[res|e]|e] eqn:Hos;
      simpl; rewrite ?app_nil_r;
      (split; [|exact Hcalls]); intros r; split;
      try discriminate;
      try (intros [v' [raw' [[= <- <-] Hv]]]; congruence).
    intros [= <-]. exists v, raw. auto.
  - rewrite app_nil_r. split; [|split; [|split]]; auto.
    + intros r. split; [discriminate|]. intros [v' [raw' [H _]]]. discriminate.
    + intros v' t' Hin. now apply Hval in Hin.
Qed.

(** X14. Whatever the orchestrator throws has one of three origins.  It
    is a terminal error built by an attempt: it carries the response, usage
    and finish reason of the call, the text of the attempt that failed and
    the cause of that attempt, with the could-not-parse reason when the
    parse step of that text failed and the did-not-match reason when the
    validator rejected the parsed value.  Or it is an error the validator
    threw on the value parsed from the text of an attempt, or an error the
    repair function threw on the original text: these leave as they are.
    The text of an attempt is the original text, or the text the repair
    function returned for it. *)
Theorem orchestrator_errors (text : jsstring) (os : OutputStrategy)
    (repairText : option RepairTextFunction)
    (format : ObjectFormat) (ctx : GenerationContext) (e : error) :
  outcome_of
    (parseAndValidateObjectResultWithRepair text os repairText format ctx)
    = Throw e ->
  let attempted t :=
    t = text
    \/ exists repair e0 cause0,
         repairText = Some repair
         /\ outcome_of (parseAndValidateObjectResult text os format ctx)
            = Throw e0
         /\ repair_cause e0 = Some cause0
         /\ repair text cause0 = Ok (Some t) in
  (exists reason cause t,
     attempted t
     /\ e = terminal reason cause t ctx
     /\ ((reason = could_not_parse
          /\ exists raw,
               outcome_of (parse_step format t) = Ok (PFailure cause raw))
         \/ (reason = did_not_match
             /\ exists v raw,
                  outcome_of (parse_step format t) = Ok (PSuccess v raw)
                  /\ os v t (response ctx) (usage ctx) = Ok (VFailure cause))))
  \/ (exists t v raw,
        attempted t
        /\ outcome_of (parse_step format t) = Ok (PSuccess v raw)
        /\ os v t (response ctx) (usage ctx) = Throw e)
  \/ (exists repair e0 cause0,
        repairText = Some repair
        /\ outcome_of (parseAndValidateObjectResult text os format ctx)
           = Throw e0
        /\ repair_cause e0 = Some cause0
        /\ repair text cause0 = Throw e).
Proof.
  intros He attempted.
  assert (Hattempt : forall t e1,
            attempted t ->
            outcome_of (parseAndValidateObjectResult t os format ctx) = Throw e1 ->
            (exists reason cause t',
               attempted t'
               /\ e1 = terminal reason cause t' ctx
               /\ ((reason = could_not_parse
                    /\ exists raw, outcome_of (parse_step format t')
                                   = Ok (PFailure cause raw))
                   \/ (reason = did_not_match
                       /\ exists v raw,
                            outcome_of (parse_step format t')
                            = Ok (PSuccess v raw)
                            /\ os v t' (response ctx) (usage ctx)
                               = Ok (VFailure cause))))
            \/ (exists t' v raw,
                  attempted t'
                  /\ outcome_of (parse_step format t') = Ok (PSuccess v raw)
                  /\ os v t' (response ctx) (usage ctx) = Throw e1)).
  { intros t e1 Ht H1. destruct (attempt_run t os format ctx) as [Ho _].
    destruct (attempt_failure t os format ctx) as [[reason cause]|] eqn:Hf.
    - left. rewrite Ho in H1. injection H1 as <-.
      exists reason, cause, t. split; [exact Ht|]. split; [reflexivity|].
      now apply attempt_failure_cases.
    - destruct (validator_throws t os format ctx) as [e'|] eqn:Hv.
      + rewrite Ho in H1. injection H1 as <-. right.
        apply validator_throws_cases in Hv as [v [raw [Hp Hos]]].
        exists t, v, raw. auto.
      + destruct Ho as [r Hr]. rewrite Hr in H1. discriminate. }
  assert (Hself : attempted text) by now left.
  pose proof (with_repair_run text os repairText format ctx) as Hrun.
  cbv zeta in Hrun.
  destruct (outcome_of (parseAndValidateObjectResult text os format ctx))
    as [r|e0] eqn:Hfirst.
  - rewrite Hrun, Hfirst in He. discriminate.
  - assert (Hkeep : e = e0 ->
              (exists reason cause t,
                 attempted t
                 /\ e = terminal reason cause t ctx
                 /\ ((reason = could_not_parse
                      /\ exists raw, outcome_of (parse_step format t)
                                     = Ok (PFailure cause raw))
                     \/ (reason = did_not_match
                         /\ exists v raw,
                              outcome_of (parse_step format t)
                              = Ok (PSuccess v raw)
                              /\ os v t (response ctx) (usage ctx)
                                 = Ok (VFailure cause))))
              \/ (exists t v raw,
                    attempted t
                    /\ outcome_of (parse_step format t) = Ok (PSuccess v raw)
                    /\ os v t (response ctx) (usage ctx) = Throw e)
              \/ (exists repair e0' cause0,
                    repairText = Some repair
                    /\ Throw (A:=RESULT) e0 = Throw e0'
                    /\ repair_cause e0' = Some cause0
                    /\ repair text cause0 = Throw e)).
    { intros ->. destruct (Hattempt text e0 Hself Hfirst) as [H|H]; auto. }
    destruct repairText as [repair|].
    + destruct (repair_cause e0) as [cause0|] eqn:Hc.
      * destruct (repair text cause0) as [[repaired|]|e'] eqn:Hrep;
          rewrite Hrun in He; simpl outcome_of in He.
        -- assert (Hrep' : attempted repaired).
           { right. exists repair, e0, cause0. auto. }
           destruct (Hattempt repaired e Hrep' He) as [H|H]; auto.
        -- apply Hkeep. now injection He as <-.
        -- injection He as <-. right. right. exists repair, e0, cause0. auto.
      * rewrite Hrun in He. apply Hkeep. now injection He as <-.
    + rewrite Hrun in He. apply Hkeep. now injection He as <-.
Qed.

(** X15. In TOON format every decode failure reaches the repair function:
    when one is supplied and the secure decode of the text throws, the
    function is called exactly once, with the original text and a
    [JSONParseError] (the thrown one, or the thrown error wrapped with the
    text). *)
Theorem toon_decode_failure_reaches_repair (text : jsstring)
    (os : OutputStrategy) (repair : RepairTextFunction)
    (ctx : GenerationContext) (e0 : error) :
  outcome_of (secureToonParse text) = Throw e0 ->
  List.filter is_repair
    (calls_of (parseAndValidateObjectResultWithRepair
                 text os (Some repair) format_toon ctx))
  = [EvRepair text (normalize_safe text e0)]
  /\ isJSONParseError (normalize_safe text e0) = true.
Proof.
  intros He.
  assert (Hk : isJSONParseError (normalize_safe text e0) = true).
  { unfold normalize_safe. destruct (isJSONParseError e0) eqn:H; auto. }
  split; [|exact Hk].
  pose proof (with_repair_run text os (Some repair) format_toon ctx) as Hrun.
  cbv zeta in Hrun.
  assert (Hf : attempt_failure text os format_toon ctx
               = Some (could_not_parse, normalize_safe text e0)).
  { unfold attempt_failure. simpl parse_step. rewrite safeParseToon_run.
    simpl outcome_of. now rewrite He. }
  destruct (attempt_run text os format_toon ctx) as [Ho Hn].
  rewrite Hf in Ho. rewrite Ho in Hrun.
  unfold terminal, repair_cause, repairable in Hrun. rewrite Hk in Hrun.
  simpl orb in Hrun. cbv iota in Hrun.
  destruct (repair text (normalize_safe text e0)) as [[repaired|]|e'];
    rewrite Hrun; simpl calls_of; rewrite filter_app, Hn; simpl;
    try reflexivity.
  destruct (attempt_run repaired os format_toon ctx) as [_ Hn2].
  now rewrite Hn2.
Qed.

(** X16. The orchestrator returns a result exactly when the first attempt
    returns it, or the first attempt throws a [NoObjectGeneratedError]
    with a repairable cause (as it does when it reports a failure with such
    a cause), the supplied repair function returns a text, and the attempt
    on that text returns the result.  After a successful first attempt
    nothing more is called. *)
Theorem orchestrator_success (text : jsstring) (os : OutputStrategy)
    (repairText : option RepairTextFunction)
    (format : ObjectFormat) (ctx : GenerationContext) :
  let first := parseAndValidateObjectResult text os format ctx in
  let whole :=
    parseAndValidateObjectResultWithRepair text os repairText format ctx in
  (forall r, outcome_of whole = Ok r <->
     outcome_of first = Ok r
     \/ exists repair e cause repaired,
          repairText = Some repair
          /\ outcome_of first = Throw e
          /\ repair_cause e = Some cause
          /\ repair text cause = Ok (Some repaired)
          /\ outcome_of (parseAndValidateObjectResult repaired os format ctx)
             = Ok r)
  /\ (forall reason cause,
        attempt_failure text os format ctx = Some (reason, cause) ->
        outcome_of first = Throw (terminal reason cause text ctx)
        /\ repair_cause (terminal reason cause text ctx)
           = if repairable cause then Some cause else None)
  /\ (forall r, outcome_of first = Ok r -> whole = first).
Proof.
  intros first whole.
  pose proof (with_repair_run text os repairText format ctx) as Hrun.
  cbv zeta in Hrun. fold first in Hrun. fold whole in Hrun.
  destruct (attempt_run text os format ctx) as [Ho _]. fold first in Ho.
  split; [|split].
  - intros r. destruct (outcome_of first) as [r'|e] eqn:Hfirst.
    + rewrite Hrun, Hfirst. split; [now left|].
      intros [Hr | [repair [e [cause [repaired [_ [H _]]]]]]];
        [exact Hr | discriminate].
    + split.
      * intros Hw. right. destruct repairText as [repair|].
        -- destruct (repair_cause e) as [cause|] eqn:Hc.
           ++ destruct (repair text cause) as [[repaired|]|e'] eqn:Hrep;
                rewrite Hrun in Hw; simpl outcome_of in Hw; try discriminate.
              exists repair, e, cause, repaired. auto.
           ++ rewrite Hrun in Hw. discriminate.
        -- rewrite Hrun in Hw. discriminate.
      * intros [Hr | [repair [e' [cause [repaired [-> [[= <-] [Hc [Hrep Hs]]]]]]]]].
        -- discriminate.
        -- rewrite Hc, Hrep in Hrun. rewrite Hrun. exact Hs.
  - intros reason cause Hf. rewrite Hf in Ho. split; [exact Ho|reflexivity].
  - intros r Hr. rewrite Hr in Hrun. exact Hrun.
Qed.

(* ===================================================================== *)
(** * Instruction injection *)
(* ===================================================================== *)

Lemma join_nl_cons (l : jsstring) (ls : list jsstring) :
  join_nl (l :: ls) =
  match ls with [] => l | _ :: _ => l ++ ch_newline :: join_nl ls end.
Proof. destruct ls; reflexivity. Qed.

Lemma inject_empty_prompt (schema : option JSONSchema7) :
  injectToonInstruction (Some []) schema = injectToonInstruction None schema.
Proof. reflexivity. Qed.

Lemma inject_nonempty_prompt (p : jsstring) (schema : option JSONSchema7) :
  p <> [] ->
  injectToonInstruction (Some p) schema =
    p ++ [ch_newline; ch_newline] ++ injectToonInstruction None schema.
Proof.
  intros Hp. unfold injectToonInstruction.
  assert (Hlen : negb (length p =? 0) = true)
    by (destruct p; [now elim Hp | reflexivity]).
  rewrite Hlen. cbn [drop_nullish flat_map app].
  rewrite (join_nl_cons p). cbn iota. rewrite (join_nl_cons []). reflexivity.
Qed.

(** X17. The injected prompt has one layout.  Without a prompt it is the
    format instructions, a blank line, the line [Expected structure:], the
    encoded example on a line of its own when a schema other than [false]
    is given (and no such line otherwise), a blank line and the closing
    sentence.  An empty prompt is treated like an absent one, and a
    non-empty prompt is put in front, followed by one blank line; the text
    after it does not depend on the prompt. *)
Theorem injectToonInstruction_layout (prompt : option jsstring)
    (schema : option JSONSchema7) :
  let example :=
    match schema with
    | Some s =>
        if schema_truthy s
        then encode (generateExampleFromSchema s) ++ [ch_newline]
        else []
    | None => []
    end in
  injectToonInstruction None schema =
    DEFAULT_TOON_INSTRUCTIONS ++ [ch_newline; ch_newline]
    ++ js "Expected structure:" ++ [ch_newline]
    ++ example ++ [ch_newline] ++ DEFAULT_TOON_SUFFIX
  /\ injectToonInstruction (Some []) schema = injectToonInstruction None schema
  /\ (forall p, prompt = Some p -> p <> [] ->
        injectToonInstruction prompt schema =
          p ++ [ch_newline; ch_newline] ++ injectToonInstruction None schema).
Proof.
  intros example. subst example. split; [|split].
  - unfold injectToonInstruction.
    destruct schema as [s|]; [destruct (schema_truthy s)|];
      cbn [drop_nullish flat_map app]; rewrite !join_nl_cons;
      cbn [app]; rewrite <- ?app_assoc; reflexivity.
  - apply inject_empty_prompt.
  - intros p -> Hp. now apply inject_nonempty_prompt.
Qed.

(** X18. Injection into messages always returns a list headed by one
    system message, followed by every input message other than a leading
    system message, unchanged and in order.  A leading system message keeps
    its provider options, and its text, when not empty, is kept in front of
    the instructions with a blank line between; the instruction text itself
    is the same in every case. *)
Theorem injectToonInstructionIntoMessages_shape
    (messages : list LanguageModelV3Message) (schema : option JSONSchema7) :
  let out := injectToonInstructionIntoMessages messages schema in
  let block := injectToonInstruction None schema in
  match messages with
  | SystemMessage content po :: rest =>
      out = SystemMessage
              (if length content =? 0 then block
               else content ++ [ch_newline; ch_newline] ++ block) po
            :: rest
      /\ length out = length messages
  | _ =>
      out = SystemMessage block None :: messages
      /\ length out = S (length messages)
  end.
Proof.
  intros out block. subst out block.
  unfold injectToonInstructionIntoMessages.
  destruct messages as [|[content po|m] rest]; simpl fst; simpl snd.
  - rewrite inject_empty_prompt. auto.
  - split; [|reflexivity]. f_equal. f_equal.
    destruct content as [|c content]; [apply inject_empty_prompt|].
    apply inject_nonempty_prompt. discriminate.
  - rewrite inject_empty_prompt. auto.
Qed.

(* ===================================================================== *)
(** * Property writes *)
(* ===================================================================== *)

Lemma str_eqb_neq (a b : jsstring) : a <> b -> str_eqb a b = false.
Proof.
  intros H. destruct (str_eqb a b) eqn:E; [|reflexivity].
  apply str_eqb_eq in E. contradiction.
Qed.

Lemma assoc_get_app {V} (l1 l2 : list (jsstring * V)) (key : jsstring) :
  assoc_get (l1 ++ l2) key =
  match assoc_get l1 key with
  | Some v => Some v
  | None => assoc_get l2 key
  end.
Proof.
  induction l1 as [|[k v] l1 IH]; simpl; [reflexivity|].
  destruct (str_eqb k key); auto.
Qed.

Lemma assoc_get_notin {V} (l : list (jsstring * V)) (key : jsstring) :
  ~ In key (map fst l) -> assoc_get l key = None.
Proof.
  induction l as [|[k v] l IH]; simpl; intros H; [reflexivity|].
  rewrite str_eqb_neq by (intros ->; apply H; now left).
  apply IH. intros Hin. apply H. now right.
Qed.

Lemma assoc_get_update_same {V} (ps : list (jsstring * V)) (key : jsstring)
    (x v : V) :
  assoc_get ps key = Some x -> assoc_get (update_prop ps key v) key = Some v.
Proof.
  induction ps as [|[k v'] ps IH]; simpl; [discriminate|].
  destruct (str_eqb k key) eqn:E; simpl; rewrite E; auto.
Qed.

Lemma assoc_get_update_other {V} (ps : list (jsstring * V)) (key key' : jsstring)
    (v : V) :
  key <> key' -> assoc_get (update_prop ps key v) key' = assoc_get ps key'.
Proof.
  intros Hne. induction ps as [|[k v'] ps IH]; simpl; [reflexivity|].
  destruct (str_eqb k key) eqn:E; simpl.
  - apply str_eqb_eq in E. subst k. now rewrite (str_eqb_neq Hne).
  - rewrite IH. reflexivity.
Qed.

Lemma assoc_get_add_same {V} (ps : list (jsstring * V)) (key : jsstring) (v : V) :
  assoc_get ps key = None -> assoc_get (add_prop ps key v) key = Some v.
Proof.
  unfold add_prop. intros Hnone. destruct (index_of_key key) as [i|].
  - induction ps as [|[k v'] ps IH]; simpl in *.
    + now rewrite str_eqb_refl.
    + destruct (str_eqb k key) eqn:E; [discriminate|].
      destruct (index_of_key k) as [j|]; [destruct (j <? i)%N|]; simpl;
        rewrite ?E, ?str_eqb_refl; auto.
  - rewrite assoc_get_app, Hnone. simpl. now rewrite str_eqb_refl.
Qed.

Lemma assoc_get_add_other {V} (ps : list (jsstring * V)) (key key' : jsstring)
    (v : V) :
  key <> key' -> assoc_get (add_prop ps key v) key' = assoc_get ps key'.
Proof.
  unfold add_prop. intros Hne. pose proof (str_eqb_neq Hne) as Hs.
  destruct (index_of_key key) as [i|].
  - induction ps as [|[k v'] ps IH]; simpl.
    + now rewrite Hs.
    + destruct (index_of_key k) as [j|]; [destruct (j <? i)%N|]; simpl;
        rewrite ?Hs, ?IH; reflexivity.
  - rewrite assoc_get_app. simpl. rewrite Hs.
    destruct (assoc_get ps key'); reflexivity.
Qed.

(** A write to an object gives an object; a key other than [__proto__]
    then reads the written value, and every other key reads as before. *)
Lemma obj_set_get (proto : option JSValue) (ps : list (jsstring * JSValue))
    (key : jsstring) (v : JSValue) :
  exists proto' ps',
    obj_set (JObject proto ps) key v = JObject proto' ps'
    /\ (key <> js "__proto__" -> proto' = proto /\ assoc_get ps' key = Some v)
    /\ (forall key', key <> key' -> assoc_get ps' key' = assoc_get ps key').
Proof.
  unfold obj_set. destruct (assoc_get ps key) as [x|] eqn:Hown.
  - eexists _, _. split; [reflexivity|]. split.
    + intros _. split; [reflexivity|]. eapply assoc_get_update_same; eauto.
    + intros key' Hne. now apply assoc_get_update_other.
  - destruct (str_eqb key (js "__proto__")) eqn:Hk; simpl andb.
    + apply str_eqb_eq in Hk. subst key.
      destruct (match proto with None => true | Some p => finds_proto_accessor p end).
      * destruct v; eexists _, _; (split; [reflexivity|]);
          (split; [intros H; now elim H | auto]).
      * eexists _, _. split; [reflexivity|]. split; [intros H; now elim H|].
        intros key' Hne. now apply assoc_get_add_other.
    + eexists _, _. split; [reflexivity|]. split.
      * intros _. split; [reflexivity|]. now apply assoc_get_add_same.
      * intros key' Hne. now apply assoc_get_add_other.
Qed.

(** Writing a list of entries in order: an ordinary key reads the value of
    its last entry, or what it read before when it has none. *)
Lemma fold_set_get (entries : list (jsstring * JSValue))
    (proto : option JSValue) (ps : list (jsstring * JSValue)) :
  exists proto' ps',
    fold_left (fun r kv => obj_set r (fst kv) (snd kv)) entries (JObject proto ps)
    = JObject proto' ps'
    /\ forall key, key <> js "__proto__" ->
         assoc_get ps' key =
         match last_entry entries key with
         | Some v => Some v
         | None => assoc_get ps key
         end.
Proof.
  revert proto ps. induction entries as [|[k v] entries IH]; intros proto ps.
  - exists proto, ps. split; [reflexivity|]. reflexivity.
  - cbn [fold_left fst snd].
    destruct (obj_set_get proto ps k v) as [p1 [ps1 [-> [Hsame Hother]]]].
    destruct (IH p1 ps1) as [p2 [ps2 [-> Hget]]].
    exists p2, ps2. split; [reflexivity|]. intros key Hkey.
    rewrite (Hget key Hkey). unfold last_entry. simpl rev.
    rewrite assoc_get_app. destruct (assoc_get (rev entries) key); [reflexivity|].
    simpl. destruct (str_eqb k key) eqn:E.
    + apply str_eqb_eq in E. subst k. now apply Hsame.
    + apply Hother. intros ->. rewrite str_eqb_refl in E. discriminate.
Qed.

Lemma last_entry_nodup {V} (entries : list (jsstring * V)) (key : jsstring) :
  NoDup (map fst entries) -> last_entry entries key = assoc_get entries key.
Proof.
  unfold last_entry. induction entries as [|[k v] entries IH]; simpl;
    intros Hnd; [reflexivity|].
  inversion Hnd as [|? ? Hnotin Hnd']; subst.
  rewrite assoc_get_app, (IH Hnd'). simpl.
  destruct (str_eqb k key) eqn:E.
  - apply str_eqb_eq in E. subst k. now rewrite (assoc_get_notin _ _ Hnotin).
  - destruct (assoc_get entries key); reflexivity.
Qed.

(** Writing entries with distinct keys into an object that has the
    standard prototype and does not own [__proto__]: the object never comes
    to own [__proto__]. *)
Lemma fold_set_no_own_proto (entries : list (jsstring * JSValue))
    (proto : option JSValue) (ps : list (jsstring * JSValue)) :
  NoDup (map fst entries) ->
  assoc_get ps (js "__proto__") = None ->
  (In (js "__proto__") (map fst entries) -> proto = None) ->
  exists proto' ps',
    fold_left (fun r kv => obj_set r (fst kv) (snd kv)) entries (JObject proto ps)
    = JObject proto' ps'
    /\ assoc_get ps' (js "__proto__") = None.
Proof.
  revert proto ps. induction entries as [|[k v] entries IH];
    intros proto ps Hnd Hown Hproto.
  - exists proto, ps. auto.
  - cbn [fold_left fst snd]. simpl in Hnd, Hproto.
    inversion Hnd as [|? ? Hnotin Hnd']; subst.
    destruct (str_eqb k (js "__proto__")) eqn:Hk.
    + apply str_eqb_eq in Hk. subst k.
      rewrite (Hproto (or_introl eq_refl)).
      assert (Hstep : exists p1,
                obj_set (JObject None ps) (js "__proto__") v = JObject p1 ps).
      { unfold obj_set. rewrite Hown, str_eqb_refl. simpl.
        destruct v; eauto. }
      destruct Hstep as [p1 ->]. apply IH; auto.
      intros Hin. contradiction.
    + assert (Hne : k <> js "__proto__").
      { intros ->. rewrite str_eqb_refl in Hk. discriminate. }
      destruct (obj_set_get proto ps k v) as [p1 [ps1 [-> [Hsame Hother]]]].
      destruct (Hsame Hne) as [-> _].
      apply IH; auto. now rewrite (Hother _ Hne).
Qed.

(* ===================================================================== *)
(** * The example generator *)
(* ===================================================================== *)

(** Induction over schemas, with the hypothesis for every sub-schema. *)
Lemma JSONSchema7_induction (P : JSONSchema7 -> Prop) :
  (forall b, P (SchemaBool b)) ->
  (forall ref anyOf oneOf allOf const enum type properties items,
     Forall P anyOf -> Forall P oneOf -> Forall P allOf ->
     Forall (fun kp => P (snd kp)) properties ->
     match items with
     | Some (inl s) => P s
     | Some (inr ss) => Forall P ss
     | None => True
     end ->
     P (SchemaNode ref anyOf oneOf allOf const enum type properties items)) ->
  forall schema, P schema.
Proof.
  intros Hb Hn. fix IH 1.
  intros [b | ref anyOf oneOf allOf const enum type properties items].
  - apply Hb.
  - apply Hn.
    + revert anyOf. fix IHl 1. intros [|x l]; constructor; [apply IH | apply IHl].
    + revert oneOf. fix IHl 1. intros [|x l]; constructor; [apply IH | apply IHl].
    + revert allOf. fix IHl 1. intros [|x l]; constructor; [apply IH | apply IHl].
    + revert properties. fix IHl 1.
      intros [|[k x] l]; constructor; [apply IH | apply IHl].
    + destruct items as [[s|ss]|]; [apply IH | | exact I].
      revert ss. fix IHl 1. intros [|x l]; constructor; [apply IH | apply IHl].
Qed.

Lemma fold_left_map_entries {A B C} (f : C -> B -> C) (g : A -> B)
    (l : list A) (c : C) :
  fold_left (fun r x => f r (g x)) l c = fold_left f (map g l) c.
Proof. revert c. induction l as [|x l IH]; intros c; simpl; auto. Qed.

Lemma assoc_get_map_values {A B} (g : A -> B) (l : list (jsstring * A))
    (key : jsstring) :
  assoc_get (map (fun kp => (fst kp, g (snd kp))) l) key =
  option_map g (assoc_get l key).
Proof.
  induction l as [|[k x] l IH]; simpl; [reflexivity|].
  destruct (str_eqb k key); auto.
Qed.

(** The example of a schema that describes an object by its properties. *)
Lemma generate_from_properties (schema : JSONSchema7) :
  property_schema schema = true ->
  generateExampleFromSchema schema =
  fold_left (fun r kv => obj_set r (fst kv) (snd kv))
    (map (fun kp => (fst kp, generateExampleFromSchema (snd kp)))
       (schema_properties schema))
    empty_object.
Proof.
  destruct schema as [b | ref anyOf oneOf allOf const enum type properties items];
    [discriminate|].
  unfold property_schema. rewrite !andb_true_iff.
  intros [[[[[[Hr Ha] Ho] Hl] Hc] He] Ht].
  destruct ref; [|discriminate]. destruct anyOf; [|discriminate].
  destruct oneOf; [|discriminate]. destruct allOf; [|discriminate].
  destruct const; try discriminate. destruct enum; [|discriminate].
  rewrite <- fold_left_map_entries. simpl.
  destruct (first_type type) as [[]|]; try discriminate; reflexivity.
Qed.

(** X19. For a schema that describes an object by its properties (no
    reference, combinator, [const] or [enum]; type [object] or none) with
    distinct property names, the example is an object in which every
    property name other than [__proto__] holds the example of its own
    schema, no other ordinary key is present, and [__proto__] is never an
    own property. *)
Theorem example_object_properties (schema : JSONSchema7) :
  property_schema schema = true ->
  NoDup (map fst (schema_properties schema)) ->
  exists proto props,
    generateExampleFromSchema schema = JObject proto props
    /\ assoc_get props (js "__proto__") = None
    /\ forall key, key <> js "__proto__" ->
         assoc_get props key =
         option_map generateExampleFromSchema
           (assoc_get (schema_properties schema) key).
Proof.
  intros Hp Hnd. rewrite (generate_from_properties _ Hp).
  set (entries := map (fun kp => (fst kp, generateExampleFromSchema (snd kp)))
                    (schema_properties schema)).
  assert (Hkeys : map fst entries = map fst (schema_properties schema)).
  { unfold entries. rewrite map_map. reflexivity. }
  assert (Hnd' : NoDup (map fst entries)) by now rewrite Hkeys.
  destruct (fold_set_get entries None []) as [p [ps [Hfold Hget]]].
  destruct (@fold_set_no_own_proto entries None [] Hnd' eq_refl (fun _ => eq_refl))
    as [p' [ps' [Hfold' Hown]]].
  unfold empty_object. rewrite Hfold in Hfold'. injection Hfold' as <- <-.
  exists p, ps. split; [exact Hfold|]. split; [exact Hown|].
  intros key Hkey. rewrite (Hget key Hkey), (last_entry_nodup _ _ Hnd').
  unfold entries. rewrite assoc_get_map_values.
  destruct (assoc_get (schema_properties schema) key); reflexivity.
Qed.

Lemma merge_members_get (allOf : list JSONSchema7) (proto : option JSValue)
    (ps : list (jsstring * JSValue)) :
  exists proto' ps',
    fold_left
      (fun result subSchema =>
         let subExample := generateExampleFromSchema subSchema in
         if is_js_object subExample then object_assign result subExample
         else result)
      allOf (JObject proto ps)
    = JObject proto' ps'
    /\ forall key, key <> js "__proto__" ->
         assoc_get ps' key =
         fold_left
           (fun acc source =>
              match last_entry (own_entries source) key with
              | Some v => Some v
              | None => acc
              end)
           (member_examples allOf) (assoc_get ps key).
Proof.
  revert proto ps. induction allOf as [|sub allOf IH]; intros proto ps.
  - exists proto, ps. split; reflexivity.
  - cbn [fold_left]. cbv zeta. unfold member_examples. cbn [map List.filter].
    destruct (is_js_object (generateExampleFromSchema sub)) eqn:Hobj.
    + destruct (fold_set_get (own_entries (generateExampleFromSchema sub)) proto ps)
        as [p1 [ps1 [Hassign Hget1]]].
      fold (object_assign (JObject proto ps) (generateExampleFromSchema sub))
        in Hassign.
      rewrite Hassign.
      destruct (IH p1 ps1) as [p2 [ps2 [Hfold Hget2]]].
      exists p2, ps2. split; [exact Hfold|]. intros key Hkey.
      rewrite (Hget2 key Hkey), (Hget1 key Hkey). reflexivity.
    + destruct (IH proto ps) as [p2 [ps2 [Hfold Hget2]]].
      exists p2, ps2. split; [exact Hfold | exact Hget2].
Qed.

(** X20. When a schema has no reference, no [anyOf] and no [oneOf] but a
    non-empty [allOf], its other keywords are ignored and the example is
    always an object: the members whose examples are objects or arrays are
    merged in order, so that an ordinary key holds the value given by the
    last member that has it, and is absent when no member has it. *)
Theorem allOf_merges_in_order (allOf : list JSONSchema7)
    (const : JSValue) (enum : list JSValue) (type : SchemaType)
    (properties : list (jsstring * JSONSchema7))
    (items : option (JSONSchema7 + list JSONSchema7)) :
  allOf <> [] ->
  exists proto props,
    generateExampleFromSchema
      (SchemaNode [] [] [] allOf const enum type properties items)
    = JObject proto props
    /\ forall key, key <> js "__proto__" ->
         assoc_get props key = merged_lookup (member_examples allOf) key.
Proof.
  intros Hne. destruct allOf as [|sub allOf]; [now elim Hne|].
  destruct (merge_members_get (sub :: allOf) None []) as [p [ps [Hfold Hget]]].
  exists p, ps. split; [exact Hfold|]. exact Hget.
Qed.

Lemma forallb_update_prop (p : JSValue -> bool)
    (ps : list (jsstring * JSValue)) (key : jsstring) (v : JSValue) :
  forallb (fun kv => p (snd kv)) ps = true -> p v = true ->
  forallb (fun kv => p (snd kv)) (update_prop ps key v) = true.
Proof.
  intros Hps Hv. induction ps as [|[k x] ps IH]; simpl in *; [reflexivity|].
  apply andb_prop in Hps as [Hx Hps].
  destruct (str_eqb k key); simpl; rewrite ?Hv, ?Hx, ?Hps, ?IH; auto.
Qed.

Lemma forallb_add_prop (p : JSValue -> bool)
    (ps : list (jsstring * JSValue)) (key : jsstring) (v : JSValue) :
  forallb (fun kv => p (snd kv)) ps = true -> p v = true ->
  forallb (fun kv => p (snd kv)) (add_prop ps key v) = true.
Proof.
  intros Hps Hv. unfold add_prop. destruct (index_of_key key) as [i|].
  - induction ps as [|[k x] ps IH]; simpl in *; [now rewrite Hv|].
    apply andb_prop in Hps as [Hx Hps].
    destruct (index_of_key k) as [j|]; [destruct (j <? i)%N|]; simpl;
      rewrite ?Hv, ?Hx, ?Hps, ?IH; auto.
  - rewrite forallb_app, Hps. simpl. now rewrite Hv.
Qed.

Lemma defined_obj_set (r : JSValue) (key : jsstring) (v : JSValue) :
  defined_value r = true -> defined_value v = true ->
  defined_value (obj_set r key v) = true.
Proof.
  intros Hr Hv. destruct r; try exact Hr. unfold obj_set.
  destruct (assoc_get props key).
  - simpl. now apply forallb_update_prop.
  - destruct (_ && _).
    + destruct v; exact Hr.
    + simpl. now apply forallb_add_prop.
Qed.

Lemma defined_fold_set (entries : list (jsstring * JSValue)) (r : JSValue) :
  defined_value r = true ->
  forallb (fun kv => defined_value (snd kv)) entries = true ->
  defined_value (fold_left (fun r kv => obj_set r (fst kv) (snd kv)) entries r)
  = true.
Proof.
  revert r. induction entries as [|[k v] entries IH]; intros r Hr He; simpl in *;
    [exact Hr|].
  apply andb_prop in He as [Hv He]. apply IH; [|exact He].
  now apply defined_obj_set.
Qed.

Lemma defined_indexed_from (elems : list JSValue) (i : nat) :
  forallb defined_value elems = true ->
  forallb (fun kv => defined_value (snd kv)) (indexed_from i elems) = true.
Proof.
  revert i. induction elems as [|e elems IH]; intros i H; simpl in *;
    [reflexivity|].
  apply andb_prop in H as [He H]. rewrite He. now apply IH.
Qed.

Lemma defined_object_assign (r source : JSValue) :
  defined_value r = true -> defined_value source = true ->
  defined_value (object_assign r source) = true.
Proof.
  intros Hr Hs. unfold object_assign. apply defined_fold_set; [exact Hr|].
  destruct source; try reflexivity; simpl in *.
  - now apply defined_indexed_from.
  - exact Hs.
Qed.

(** X21. A schema in which the schema [false] occurs nowhere, and whose
    [const] and [enum] values hold no [undefined], never yields
    [undefined]: neither as the example nor anywhere among its elements and
    own properties. *)
Theorem plain_schema_example_is_defined (schema : JSONSchema7) :
  plain_schema schema = true ->
  defined_value (generateExampleFromSchema schema) = true.
Proof.
  induction schema
    as [b | ref anyOf oneOf allOf const enum type properties items
            IHany IHone IHall IHprops IHitems]
    using JSONSchema7_induction.
  - destruct b; [reflexivity | discriminate].
  - simpl plain_schema. rewrite !andb_true_iff.
    intros [[[[[[Hany Hone] Hall] Hconst] Henum] Hprops] Hitems].
    cbn [generateExampleFromSchema].
    destruct (negb (length ref =? 0)); [reflexivity|].
    destruct anyOf as [|a anyOf].
    2:{ inversion IHany; subst. simpl in Hany.
        apply andb_prop in Hany as [Ha _]. auto. }
    destruct oneOf as [|o oneOf].
    2:{ inversion IHone; subst. simpl in Hone.
        apply andb_prop in Hone as [Ho _]. auto. }
    destruct allOf as [|m allOf].
    2:{ assert (Hfold : forall l r,
                  Forall (fun s => plain_schema s = true ->
                            defined_value (generateExampleFromSchema s) = true) l ->
                  forallb plain_schema l = true ->
                  defined_value r = true ->
                  defined_value
                    (fold_left
                       (fun result subSchema =>
                          let subExample := generateExampleFromSchema subSchema in
                          if is_js_object subExample
                          then object_assign result subExample
                          else result) l r) = true).
        { induction l as [|s l IHl]; intros r HF Hl Hr; [exact Hr|].
          inversion HF; subst. simpl in Hl. apply andb_prop in Hl as [Hs Hl].
          cbn [fold_left]. cbv zeta. apply IHl; auto.
          destruct (is_js_object (generateExampleFromSchema s)); [|exact Hr].
          apply defined_object_assign; auto. }
        apply Hfold; auto. }
    destruct (is_undefined const) eqn:Hu; simpl negb; cbv iota.
    2:{ simpl in Hconst. exact Hconst. }
    destruct enum as [|e enum].
    2:{ simpl in Henum. now apply andb_prop in Henum as [He _]. }
    assert (Hfrom :
      defined_value
        (fold_left
           (fun result kp =>
              obj_set result (fst kp) (generateExampleFromSchema (snd kp)))
           properties empty_object) = true).
    { rewrite (fold_left_map_entries
                 (fun r kv => obj_set r (fst kv) (snd kv))
                 (fun kp => (fst kp, generateExampleFromSchema (snd kp)))).
      apply defined_fold_set; [reflexivity|].
      clear -IHprops Hprops.
      induction properties as [|[k s] properties IH]; [reflexivity|].
      inversion IHprops; subst. simpl in *.
      apply andb_prop in Hprops as [Hs Hps]. rewrite IH by auto.
      rewrite andb_true_r. auto. }
    destruct (first_type type) as [[]|]; try reflexivity; try exact Hfrom.
    destruct items as [[s|ss]|]; try reflexivity.
    destruct (schema_truthy s); [|reflexivity].
    simpl. rewrite (IHitems Hitems). reflexivity.
Qed.

(* ===================================================================== *)
(** * The two wrappers side by side *)
(* ===================================================================== *)


End Pipeline.

Arguments Ok {Response Usage FinishReason A} a.
Arguments Throw {Response Usage FinishReason A} e.
Arguments SyntaxError {Response Usage FinishReason} message.
Arguments TypeError {Response Usage FinishReason} message.
Arguments OtherError {Response Usage FinishReason} tag.
Arguments EvDecode {Response Usage FinishReason} text.
Arguments EvScan {Response Usage FinishReason} obj.
Arguments stub_decode {Response Usage FinishReason} text.
Arguments stub_validate {Response Usage FinishReason} strict v.
Arguments filter {Response Usage FinishReason} obj.
Arguments VSuccess {Response Usage FinishReason RESULT} v.

(* ===================================================================== *)
(** * Concrete runs *)
(* ===================================================================== *)

Local Notation "'sdecode'" := (@stub_decode unit unit unit).
Local Notation "'svalidate'" := (@stub_validate unit unit unit).

(** C4. On the object [{constructor: null}], which no forbidden node
    inhabits, the scan neither returns the value nor throws the
    forbidden-property error: the test of the constructor's own [prototype]
    throws a [TypeError]; the same happens from the text through the secure
    decoder; and a forbidden node below such an object is not reported. *)
Theorem C4_null_constructor_escapes_scan :
  let obj := VObject [(js "constructor", VNull)] in
  let deep := VObject [(js "constructor", VNull);
                       (js "a", VObject [(js "__proto__", VNumber 1)])] in
  let text := quoted "constructor" ++ js ": null" in
  any_node (@forbidden_node unit unit unit) obj = false
  /\ @filter unit unit unit obj = Throw (TypeError null_to_object_message)
  /\ secureToonParse sdecode text =
       (Throw (TypeError null_to_object_message), [EvDecode text; EvScan obj])
  /\ any_node (@forbidden_node unit unit unit) deep = true
  /\ @filter unit unit unit deep = Throw (TypeError null_to_object_message).
Proof. vm_compute. repeat split. Qed.

(** C1, as stated, fails: on [cut_text] the search stops at the first two
    lines, their decode fails, and failed-parse is reported although the
    first line alone, at which the search could stop and which decodes, was
    never tried. *)
Lemma C1_search_does_not_continue :
  ~ search_continues_past_failed_candidate sdecode svalidate.
Proof.
  intros H. destruct (H cut_text eq_refl) as [_ H2].
  specialize (H2 eq_refl 1 ltac:(vm_compute; lia) eq_refl).
  vm_compute in H2. destruct H2 as [H2|[H2|[]]]; discriminate H2.
Qed.

Lemma C1_single_candidate_witness :
  full_parse_fails sdecode svalidate cut_text = true
  /\ repairPartialToon cut_text = Some (js "k: 1" ++ ch_newline :: js "]]")
  /\ outcome_of (parsePartialToon sdecode svalidate (Some cut_text)) =
       Ok failed_outcome
  /\ forall t,
       In t (decoded_texts (parsePartialToon sdecode svalidate (Some cut_text))) ->
       t = cut_text
       \/ (repairPartialToon cut_text = Some t /\ t <> cut_text).
Proof.
  split; [reflexivity|]. split; [reflexivity|]. split; [reflexivity|].
  exact (proj2 (proj2 (proj2
    (C1_single_candidate_is_decoded sdecode svalidate cut_text eq_refl)))).
Defined.

Lemma C10_own_candidate_witness :
  no_trailing_ws (js "]]") = true
  /\ full_parse_fails sdecode svalidate (js "]]") = true
  /\ looksComplete (js "]]") = true
  /\ repairPartialToon (js "]]") = Some (js "]]")
  /\ outcome_of (parsePartialToon sdecode svalidate (Some (js "]]"))) =
       Ok (mkOutcome None failed_parse)
  /\ decoded_texts (parsePartialToon sdecode svalidate (Some (js "]]"))) =
       [js "]]"].
Proof.
  split; [reflexivity|]. split; [reflexivity|]. split; [reflexivity|].
  apply (@C10_own_candidate_is_not_retried unit unit unit sdecode bool svalidate
           (js "]]") (js "]]")).
  - discriminate.
  - reflexivity.
  - reflexivity.
  - reflexivity.
  - reflexivity.
Defined.

(** The text names the key without quotes, so neither pattern matches; the
    decoded object owns [__proto__] and is returned all the same. *)
Lemma C3_fast_path_witness :
  let text := js "__proto__: 1" in
  let obj := VObject [(js "__proto__", VNumber 1)] in
  sdecode text = Ok obj
  /\ any_node (@forbidden_node unit unit unit) obj = true
  /\ secureToonParse sdecode text = (Ok obj, [EvDecode text]).
Proof.
  split; [reflexivity|]. split; [reflexivity|].
  apply (proj2 (@C3_fast_path_returns_decoded unit unit unit sdecode
                  (js "__proto__: 1") (VObject [(js "__proto__", VNumber 1)])
                  eq_refl)); reflexivity.
Defined.

Lemma C9_normalizes_witness :
  outcome_of (parseToon sdecode svalidate (js "]]") None) =
    Throw (JSONParseError (js "]]") (SyntaxError "Missing colon after key"))
  /\ outcome_of (parseToon sdecode svalidate (js "k: 1") (Some true)) =
       Throw (TypeValidationError (VObject [(js "k", VNumber 1)])
                (OtherError "schema mismatch")).
Proof.
  split.
  - apply (proj1 (@C9_parseToon_normalizes_errors unit unit unit sdecode bool
                    svalidate (js "]]") None)
             (SyntaxError "Missing colon after key")).
    reflexivity.
  - apply (proj1 (proj2 (@C9_parseToon_normalizes_errors unit unit unit sdecode
                           bool svalidate (js "k: 1") (Some true)))
             (VObject [(js "k", VNumber 1)]) true (OtherError "schema mismatch"));
      reflexivity.
Defined.

Lemma C2_repair_declined_witness :
  let os : OutputStrategy unit unit unit JSONValue :=
    fun v _ _ _ => Ok (VSuccess v) in
  let repair : RepairTextFunction unit unit unit := fun _ _ => Ok None in
  let no_json : jsstring -> ParseResult unit unit unit :=
    fun _ => PFailure (OtherError "json path unused") None in
  let ctx := mkContext tt tt tt in
  let cause := JSONParseError (js "]]") (SyntaxError "Missing colon after key") in
  let whole :=
    parseAndValidateObjectResultWithRepair sdecode svalidate no_json
      (js "]]") os (Some repair) format_toon ctx in
  calls_of whole = [EvDecode (js "]]"); EvRepair (js "]]") cause]
  /\ repair_calls whole <= 1
  /\ outcome_of (parseAndValidateObjectResult sdecode svalidate no_json
                   (js "]]") os format_toon ctx) =
       Throw (terminal could_not_parse cause (js "]]") ctx)
  /\ outcome_of whole = Throw (terminal could_not_parse cause (js "]]") ctx).
Proof.
  intros os repair no_json ctx cause whole.
  split; [reflexivity|].
  pose proof (@C2_repair_once_and_null_rethrows unit unit unit sdecode bool
                svalidate JSONValue no_json (js "]]") os (Some repair)
                format_toon ctx) as [Hle Hnull].
  split; [exact Hle|].
  destruct (Hnull repair (js "]]") cause eq_refl
              (or_intror (or_introl eq_refl)) eq_refl)
    as [e [_ [Hfirst [Hwhole _]]]].
  split; [reflexivity|].
  exact (eq_trans Hwhole (eq_trans (eq_sym Hfirst) eq_refl)).
Defined.

(** C6, as stated, fails in its last clause: the decode of the text
    fails, the repair function returns a text that decodes, the validator
    throws on the decoded value, and the call throws the validator's error,
    which is no terminal error. *)
Lemma C6_second_failure_not_terminal :
  ~ @second_failure_is_terminal unit unit unit sdecode bool svalidate JSONValue
      (fun _ => PFailure (OtherError "json path unused") None).
Proof.
  intros H.
  pose (text := js "k: 1" ++ ch_newline :: js "]]").
  pose (cause := JSONParseError text
                   (@SyntaxError unit unit unit "Missing colon after key")).
  destruct (H text
              (fun _ _ _ _ => Throw (OtherError "validator crashed"))
              (fun _ _ => Ok (Some (js "k: 1")))
              format_toon (mkContext tt tt tt)
              (terminal could_not_parse cause text (mkContext tt tt tt))
              cause (js "k: 1") (OtherError "validator crashed")
              eq_refl eq_refl eq_refl eq_refl)
    as [reason [cause2 Hwhole]].
  vm_compute in Hwhole. discriminate Hwhole.
Qed.

Lemma C6_second_attempt_witness :
  let os : OutputStrategy unit unit unit JSONValue :=
    fun v _ _ _ => Ok (VSuccess v) in
  let text := js "k: 1" ++ ch_newline :: js "]]" in
  let repaired := js "j: 1" ++ ch_newline :: js "]]" in
  let repair : RepairTextFunction unit unit unit :=
    fun _ _ => Ok (Some repaired) in
  let no_json : jsstring -> ParseResult unit unit unit :=
    fun _ => PFailure (OtherError "json path unused") None in
  let ctx := mkContext tt tt tt in
  let cause := JSONParseError text (SyntaxError "Missing colon after key") in
  let cause2 := JSONParseError repaired (SyntaxError "Missing colon after key") in
  let whole :=
    parseAndValidateObjectResultWithRepair sdecode svalidate no_json
      text os (Some repair) format_toon ctx in
  outcome_of (parseAndValidateObjectResult sdecode svalidate no_json
                text os format_toon ctx) =
    Throw (terminal could_not_parse cause text ctx)
  /\ repair_cause (terminal could_not_parse cause text ctx) = Some cause
  /\ repair_calls whole = 1
  /\ outcome_of whole = Throw (terminal could_not_parse cause2 repaired ctx).
Proof.
  intros os text repaired repair no_json ctx cause cause2 whole.
  split; [reflexivity|]. split; [reflexivity|].
  pose proof (@C6_repair_gate_and_final_second_attempt unit unit unit sdecode
                bool svalidate JSONValue no_json text os (Some repair)
                format_toon ctx) as [_ [_ Hsecond]].
  destruct (Hsecond repair (terminal could_not_parse cause text ctx)
              cause repaired eq_refl eq_refl eq_refl eq_refl)
    as [_ [Hone [Hfinal _]]].
  split; [exact Hone|].
  apply Hfinal. reflexivity.
Defined.

Arguments stub_decode_quoted {Response Usage FinishReason} text.

(* ===================================================================== *)
(** * Further concrete runs *)
(* ===================================================================== *)

Local Notation "'qdecode'" := (@stub_decode_quoted unit unit unit).

Lemma clean_tree_witness :
  sdecode (js "k: 1") = Ok (VObject [(js "k", VNumber 1)])
  /\ outcome_of (secureToonParse sdecode (js "k: 1")) =
       Ok (VObject [(js "k", VNumber 1)]).
Proof.
  split; [reflexivity|].
  apply (@clean_tree_always_passes unit unit unit sdecode (js "k: 1")
           (VObject [(js "k", VNumber 1)])); reflexivity.
Defined.

Lemma pollution_witness :
  let text := quoted "__proto__" ++ js ": 1" in
  let rejected :=
    JSONParseError text (@SyntaxError unit unit unit forbidden_message) in
  suspectProtoRx text = true
  /\ outcome_of (secureToonParse qdecode text) = Throw (SyntaxError forbidden_message)
  /\ (forall schema,
        outcome_of (parseToon qdecode svalidate text schema) = Throw rejected)
  /\ outcome_of (safeParseToon qdecode svalidate text None) =
       Ok (PFailure rejected None)
  /\ outcome_of (isParsableToon qdecode text) = Ok false.
Proof.
  intros text rejected. split; [reflexivity|].
  apply (@pollution_is_rejected unit unit unit qdecode bool svalidate text
           (VObject [(js "__proto__", VNumber 1)])).
  - reflexivity.
  - left. reflexivity.
  - reflexivity.
  - reflexivity.
Defined.

Lemma repaired_prefix_witness :
  outcome_of (parsePartialToon sdecode svalidate (Some cut_row_text)) =
    Ok (mkOutcome (Some (VObject [(js "k", VNumber 1)])) repaired_parse)
  /\ exists c rest,
       cut_row_text = c ++ rest /\ c <> [] /\ rest <> []
       /\ full_parse_fails sdecode svalidate cut_row_text = true
       /\ outcome_of (secureToonParse sdecode c) =
            Ok (VObject [(js "k", VNumber 1)])
       /\ decoded_texts (parsePartialToon sdecode svalidate (Some cut_row_text)) =
            [cut_row_text; c].
Proof.
  split; [reflexivity|].
  apply (@repaired_value_is_prefix_decode unit unit unit sdecode bool svalidate
           cut_row_text (VObject [(js "k", VNumber 1)])).
  reflexivity.
Defined.

Lemma orchestrator_errors_witness :
  let os : OutputStrategy unit unit unit JSONValue :=
    fun _ _ _ _ => Throw (OtherError "validator crashed") in
  let no_json : jsstring -> ParseResult unit unit unit :=
    fun _ => PFailure (OtherError "json path unused") None in
  let text := js "k: 1" ++ ch_newline :: js "]]" in
  let repair : RepairTextFunction unit unit unit :=
    fun _ _ => Ok (Some (js "k: 1")) in
  let ctx := mkContext tt tt tt in
  let e := @OtherError unit unit unit "validator crashed" in
  let whole :=
    parseAndValidateObjectResultWithRepair sdecode svalidate no_json
      text os (Some repair) format_toon ctx in
  outcome_of whole = Throw e
  /\ ((exists reason cause t, e = terminal reason cause t ctx)
      \/ (exists t v, os v t (response ctx) (usage ctx) = Throw e)
      \/ (exists cause0, repair text cause0 = Throw e)).
Proof.
  intros os no_json text repair ctx e whole. split; [reflexivity|].
  destruct (@orchestrator_errors unit unit unit sdecode bool svalidate JSONValue
              no_json text os (Some repair) format_toon ctx e eq_refl)
    as [[reason [cause [t [_ [He _]]]]]
       | [[t [v [raw [_ [_ Hos]]]]]
         | [repair' [e0 [cause0 [Hr [_ [_ Hrep]]]]]]]].
  - left. eauto.
  - right. left. eauto.
  - right. right. injection Hr as <-. eauto.
Defined.

Lemma toon_failure_reaches_repair_witness :
  let os : OutputStrategy unit unit unit JSONValue :=
    fun v _ _ _ => Ok (VSuccess v) in
  let no_json : jsstring -> ParseResult unit unit unit :=
    fun _ => PFailure (OtherError "json path unused") None in
  let repair : RepairTextFunction unit unit unit :=
    fun _ _ => Ok (Some (js "k: 1")) in
  let ctx := mkContext tt tt tt in
  let e0 := @SyntaxError unit unit unit "Missing colon after key" in
  outcome_of (secureToonParse sdecode (js "]]")) = Throw e0
  /\ List.filter (@is_repair unit unit unit)
       (calls_of (parseAndValidateObjectResultWithRepair sdecode svalidate
                    no_json (js "]]") os (Some repair) format_toon ctx))
     = [EvRepair (js "]]") (JSONParseError (js "]]") e0)]
  /\ outcome_of (parseAndValidateObjectResultWithRepair sdecode svalidate
                   no_json (js "]]") os (Some repair) format_toon ctx)
     = Ok (VObject [(js "k", VNumber 1)]).
Proof.
  intros os no_json repair ctx e0. split; [reflexivity|]. split; [|reflexivity].
  exact (proj1 (@toon_decode_failure_reaches_repair unit unit unit sdecode bool
                  svalidate JSONValue no_json (js "]]") os repair ctx e0
                  eq_refl)).
Defined.

Lemma basicSchema_keys_distinct : NoDup (map fst (schema_properties basicSchema)).
Proof.
  simpl. constructor.
  - intros [H|[]]. discriminate H.
  - constructor; [intros [] | constructor].
Qed.

Lemma example_object_witness :
  generateExampleFromSchema basicSchema =
    JObject None [(js "name", JString (js "example")); (js "age", JNumber 1)]
  /\ exists proto props,
       generateExampleFromSchema basicSchema = JObject proto props
       /\ assoc_get props (js "__proto__") = None
       /\ forall key, key <> js "__proto__" ->
            assoc_get props key =
            option_map generateExampleFromSchema
              (assoc_get (schema_properties basicSchema) key).
Proof.
  split; [reflexivity|].
  apply (example_object_properties basicSchema eq_refl basicSchema_keys_distinct).
Defined.

Lemma allOf_merge_witness :
  let override :=
    SchemaNode [] [] [] [] (JObject None [(js "age", JString (js "old"))]) []
      TypeAbsent [] None in
  generateExampleFromSchema
    (SchemaNode [] [] [] [basicSchema; override] JUndefined [] (TypeOne T_string)
       [] None)
  = JObject None [(js "name", JString (js "example"));
                  (js "age", JString (js "old"))]
  /\ exists proto props,
       generateExampleFromSchema
         (SchemaNode [] [] [] [basicSchema; override] JUndefined []
            (TypeOne T_string) [] None)
       = JObject proto props
       /\ forall key, key <> js "__proto__" ->
            assoc_get props key =
            merged_lookup (member_examples [basicSchema; override]) key.
Proof.
  intros override. split; [reflexivity|].
  apply (@allOf_merges_in_order [basicSchema; override] JUndefined []
           (TypeOne T_string) [] None).
  discriminate.
Defined.

Lemma plain_schema_witness :
  plain_schema basicSchema = true
  /\ defined_value (generateExampleFromSchema basicSchema) = true.
Proof.
  split; [reflexivity|].
  apply (plain_schema_example_is_defined basicSchema). reflexivity.
Defined.
